(** * Playback-source reconciliation: the remote adapter and the coordinator

    A shallow embedding of [useSpotifyPlayer] (the remote session adapter)
    and of [PlayerProvider] in [src/contexts/PlayerContext.tsx] (the
    playback coordinator with its local preview fallback).

    React state is modelled by explicit state passing: every listener and
    every action is a function from the state of the last render to the
    state of the next one, together with the calls it makes on the vendor
    player, on the Web API and on the audio element.  A JavaScript number
    is modelled by the rational it denotes ([Q]): the finite doubles.
    Comparisons and [Math.min] are exact on them; [+], [*] and [/] round
    the exact result to the nearest double ([JS.round_double]). *)

From Stdlib Require Import List String Ascii Bool ZArith QArith Qminmax Lia Lqa.
From Stdlib Require Qcanon.
Import ListNotations.

Local Open Scope string_scope.

(** ** JavaScript values *)

Module JS.

(** Completion of a call: it returns normally or throws. *)
Inductive completion (A : Type) : Type :=
| Normal (a : A)
| Throw (e : string).
Arguments Normal {A} a.
Arguments Throw {A} e.

Definition returns {A : Type} (c : completion A) : bool :=
  match c with Normal _ => true | Throw _ => false end.

(** Truthiness of a string, of a possibly null string, of a number. *)
Definition truthy_string (s : string) : bool := negb (String.eqb s "").

Definition truthy_opt (o : option string) : bool :=
  match o with
  | Some s => truthy_string s
  | None => false
  end.

Definition truthy_number (x : Q) : bool := negb (Qeq_bool x 0).

(** Rounding to binary64, nearest, ties to even.  [round_half_even N D]
    is the integer nearest to [N / D]; [round_pos a d] is the double
    nearest to [a / d] for positive [a] and [d]: [e] is the binary
    exponent of [a / d], and the spacing of the doubles around it is
    [2 ^ u] with [u = max (e - 52) (-1074)].  Numbers are finite here: a
    result beyond the largest double is outside the model. *)
Definition round_half_even (N D : Z) : Z :=
  let q := (N / D)%Z in
  match (2 * (N mod D) ?= D)%Z with
  | Lt => q
  | Gt => (q + 1)%Z
  | Eq => if Z.even q then q else (q + 1)%Z
  end.

Definition round_pos (a d : Z) : Q :=
  let e0 := (Z.log2 a - Z.log2 d)%Z in
  let e := if (a * 2 ^ Z.max 0 (- e0) <? d * 2 ^ Z.max 0 e0)%Z
           then (e0 - 1)%Z else e0 in
  let u := Z.max (e - 52) (-1074) in
  if (0 <=? u)%Z
  then inject_Z (round_half_even a (d * 2 ^ u) * 2 ^ u)
  else round_half_even (a * 2 ^ (- u)) d # Z.to_pos (2 ^ (- u)).

Definition round_double (x : Q) : Q :=
  match Qnum (Qred x) with
  | Z0 => 0
  | Zpos a => Qred (round_pos (Zpos a) (Zpos (Qden (Qred x))))
  | Zneg a => Qred (- round_pos (Zpos a) (Zpos (Qden (Qred x))))
  end.

(** [x + y], [x * y] and [x / y] on numbers. *)
Definition num_add (x y : Q) : Q := round_double (x + y).
Definition num_mul (x y : Q) : Q := round_double (x * y).
Definition num_div (x y : Q) : Q := round_double (x / y).

(** [x || d] on numbers. *)
Definition or_number (x d : Q) : Q := if truthy_number x then x else d.

(** [arr.length] and [arr[i]] ([undefined] out of range). *)
Definition length {A : Type} (arr : list A) : Z := Z.of_nat (List.length arr).

Definition get {A : Type} (arr : list A) (i : Z) : option A :=
  if (i <? 0)%Z then None else nth_error arr (Z.to_nat i).

(** [arr.findIndex(f)]: the first index whose element satisfies [f],
    or -1. *)
Fixpoint findIndex_from {A : Type} (f : A -> bool) (arr : list A) (i : Z) : Z :=
  match arr with
  | [] => (-1)%Z
  | x :: rest => if f x then i else findIndex_from f rest (i + 1)%Z
  end.

Definition findIndex {A : Type} (f : A -> bool) (arr : list A) : Z :=
  findIndex_from f arr 0%Z.

(** [s.split(sep)] for a one-character separator. *)
Fixpoint split (sep : ascii) (s : string) : list string :=
  match s with
  | EmptyString => [EmptyString]
  | String c rest =>
      if Ascii.eqb c sep then EmptyString :: split sep rest
      else match split sep rest with
           | [] => [String c EmptyString]
           | w :: ws => String c w :: ws
           end
  end.

(** [uri?.split(':')[2]] *)
Definition uri_segment2 (uri : option string) : option string :=
  match uri with
  | None => None
  | Some u => nth_error (split ":"%char u) 2
  end.

End JS.

Import JS.

(** ** Tracks *)

(** Modelled from the spec: the [SpotifyTrack] interface of
    [@/hooks/useSpotify], which is not among the sources.  The spec lists
    id, name, duration, album (id, name, artwork set), artist list and an
    optional preview-clip URL.  The identifiers of album and artists may be
    [undefined] in objects built by the remote adapter. *)
Record SpotifyArtist : Type := mkArtist {
  artist_id : option string;
  artist_name : option string
}.

Record SpotifyAlbum : Type := mkAlbum {
  album_id : option string;
  album_name : option string;
  album_images : list string
}.

Record SpotifyTrack : Type := mkTrack {
  id : string;
  name : string;
  duration_ms : Q;
  album : SpotifyAlbum;
  artists : list SpotifyArtist;
  preview_url : option string
}.

(** ** The remote session adapter, [useSpotifyPlayer] *)

Module SpotifyPlayer.

Record PlayerState : Type := mkState {
  deviceId : option string;
  isReady : bool;
  isActive : bool;
  isPaused : bool;
  currentTrack : option SpotifyTrack;
  position : Q;
  duration : Q;
  volume : Q
}.

(** The initial value given to [useState]. *)
Definition initial : PlayerState :=
  {| deviceId := None; isReady := false; isActive := false;
     isPaused := true; currentTrack := None;
     position := 0; duration := 0; volume := 1 # 2 |}.

(** *** Payloads of the vendor runtime *)

Record DevicePayload : Type := mkDevice { device_id : string }.

Record WebPlaybackArtist : Type := mkWArtist {
  wa_uri : option string;
  wa_name : option string
}.

Record WebPlaybackAlbum : Type := mkWAlbum {
  wb_uri : option string;
  wb_name : option string;
  wb_images : option (list string)
}.

Record WebPlaybackTrack : Type := mkWTrack {
  wt_id : string;
  wt_name : string;
  wt_duration_ms : Q;
  wt_album : option WebPlaybackAlbum;
  wt_artists : option (list WebPlaybackArtist)
}.

(** [playerState.paused], [playerState.position] and
    [playerState.track_window?.current_track]. *)
Record WebPlaybackState : Type := mkWState {
  paused : bool;
  ws_position : Q;
  current_track : option WebPlaybackTrack
}.

(** The object literal built at lines 110-123. *)
Definition map_track (t : WebPlaybackTrack) : SpotifyTrack :=
  {| id := wt_id t;
     name := wt_name t;
     duration_ms := wt_duration_ms t;
     album :=
       {| album_id := uri_segment2 (match wt_album t with
                                    | Some a => wb_uri a
                                    | None => None
                                    end);
          album_name := match wt_album t with
                        | Some a => wb_name a
                        | None => None
                        end;
          album_images := match wt_album t with
                          | Some a => match wb_images a with
                                      | Some imgs => imgs
                                      | None => []
                                      end
                          | None => []
                          end |};
     artists :=
       match wt_artists t with
       | Some l => map (fun a => {| artist_id := uri_segment2 (wa_uri a);
                                    artist_name := wa_name a |}) l
       | None => []
       end;
     preview_url := None |}.

(** *** Listeners

    Each listener starts with [if (!isMounted) return;] and then calls
    [setState] with an updater of the previous state. *)

Definition on_ready (isMounted : bool) (ev : DevicePayload)
    (prev : PlayerState) : PlayerState :=
  if negb isMounted then prev
  else {| deviceId := Some (device_id ev); isReady := true;
          isActive := isActive prev; isPaused := isPaused prev;
          currentTrack := currentTrack prev; position := position prev;
          duration := duration prev; volume := volume prev |}.

Definition on_not_ready (isMounted : bool) (ev : DevicePayload)
    (prev : PlayerState) : PlayerState :=
  if negb isMounted then prev
  else {| deviceId := deviceId prev; isReady := false;
          isActive := isActive prev; isPaused := isPaused prev;
          currentTrack := currentTrack prev; position := position prev;
          duration := duration prev; volume := volume prev |}.

Definition on_player_state_changed (isMounted : bool)
    (playerState : option WebPlaybackState) (prev : PlayerState) : PlayerState :=
  if negb isMounted then prev
  else match playerState with
       | None =>
           {| deviceId := deviceId prev; isReady := isReady prev;
              isActive := false; isPaused := isPaused prev;
              currentTrack := currentTrack prev; position := position prev;
              duration := duration prev; volume := volume prev |}
       | Some ps =>
           {| deviceId := deviceId prev; isReady := isReady prev;
              isActive := true; isPaused := paused ps;
              currentTrack := option_map map_track (current_track ps);
              position := ws_position ps;
              duration := match current_track ps with
                          | Some t => or_number (wt_duration_ms t) 0
                          | None => 0
                          end;
              volume := volume prev |}
       end.

(** The three error listeners only log. *)
Definition on_error (message : string) (prev : PlayerState) : PlayerState := prev.

(** *** The position interval (lines 241-252)

    The effect installs the interval only while the state is active and
    not paused; its callback adds a second, capped at the duration. *)
Definition interval_installed (s : PlayerState) : bool :=
  isActive s && negb (isPaused s).

Definition interval_callback (prev : PlayerState) : PlayerState :=
  {| deviceId := deviceId prev; isReady := isReady prev;
     isActive := isActive prev; isPaused := isPaused prev;
     currentTrack := currentTrack prev;
     position := Qmin (num_add (position prev) 1000) (duration prev);
     duration := duration prev; volume := volume prev |}.

Definition tick (s : PlayerState) : PlayerState :=
  if interval_installed s then interval_callback s else s.

(** *** Events of the adapter, and their delivery in sequence *)

Inductive Event : Type :=
| Ready (ev : DevicePayload)
| NotReady (ev : DevicePayload)
| StateChanged (playerState : option WebPlaybackState)
| InitializationError (message : string)
| AuthenticationError (message : string)
| AccountError (message : string)
| Tick.

Definition deliver (isMounted : bool) (e : Event) (s : PlayerState) : PlayerState :=
  match e with
  | Ready ev => on_ready isMounted ev s
  | NotReady ev => on_not_ready isMounted ev s
  | StateChanged ps => on_player_state_changed isMounted ps s
  | InitializationError m | AuthenticationError m | AccountError m => on_error m s
  | Tick => tick s
  end.

Definition deliver_all (isMounted : bool) (es : list Event) (s : PlayerState)
    : PlayerState :=
  fold_left (fun acc e => deliver isMounted e acc) es s.

(** *** Transport methods

    What the hook returns: the state spread together with the six
    methods.  [playerRef] tells whether [playerRef.current] is set. *)
Record Hook : Type := mkHook {
  state : PlayerState;
  playerRef : bool
}.

Inductive Method : Type :=
| play (uri : string) (contextUri : option string)
| togglePlay
| nextTrack
| previousTrack
| seek (position_ms : Q)
| setVolume (v : Q).

(** The body of the PUT request of [play]. *)
Inductive PlayBody : Type :=
| ContextBody (context_uri : string) (offset_uri : string)
| UrisBody (uris : list string).

Inductive SdkCall : Type :=
| PlayerTogglePlay
| PlayerNextTrack
| PlayerPreviousTrack
| PlayerSeek (position_ms : Q)
| PlayerSetVolume (v : Q)
| FetchPlay (device : string) (token : string) (body : PlayBody).

(** The calls a method makes; [token] is what [getValidAccessToken]
    resolved to. *)
Definition invoke (token : option string) (m : Method) (h : Hook) : list SdkCall :=
  match m with
  | play uri contextUri =>
      match token, deviceId (state h) with
      | Some tok, Some dev =>
          if truthy_string tok && truthy_string dev then
            [FetchPlay dev tok
               (match contextUri with
                | Some c => if truthy_string c then ContextBody c uri
                            else UrisBody [uri]
                | None => UrisBody [uri]
                end)]
          else []
      | _, _ => []
      end
  | togglePlay => if playerRef h then [PlayerTogglePlay] else []
  | nextTrack => if playerRef h then [PlayerNextTrack] else []
  | previousTrack => if playerRef h then [PlayerPreviousTrack] else []
  | seek ms => if playerRef h then [PlayerSeek ms] else []
  | setVolume v => if playerRef h then [PlayerSetVolume v] else []
  end.

(** The state update a method makes once the call it awaited has
    resolved: only [setVolume] has one. *)
Definition resolved (m : Method) (h : Hook) : Hook :=
  match m with
  | setVolume v =>
      if playerRef h then
        {| state := {| deviceId := deviceId (state h); isReady := isReady (state h);
                       isActive := isActive (state h); isPaused := isPaused (state h);
                       currentTrack := currentTrack (state h);
                       position := position (state h);
                       duration := duration (state h); volume := v |};
           playerRef := playerRef h |}
      else h
  | _ => h
  end.

End SpotifyPlayer.

(** ** The coordinator, [PlayerProvider] *)

(** The [previewState] object of the local fallback. *)
Module Preview.

Record PreviewState : Type := mkPreview {
  isPlaying : bool;
  progress : Q;
  duration : Q;
  volume : Q
}.

Definition initial : PreviewState :=
  {| isPlaying := false; progress := 0; duration := 0; volume := 1 # 2 |}.

Definition with_isPlaying (b : bool) (prev : PreviewState) : PreviewState :=
  {| isPlaying := b; progress := progress prev;
     duration := duration prev; volume := volume prev |}.

Definition with_progress (x : Q) (prev : PreviewState) : PreviewState :=
  {| isPlaying := isPlaying prev; progress := x;
     duration := duration prev; volume := volume prev |}.

Definition with_duration (x : Q) (prev : PreviewState) : PreviewState :=
  {| isPlaying := isPlaying prev; progress := progress prev;
     duration := x; volume := volume prev |}.

Definition with_volume (x : Q) (prev : PreviewState) : PreviewState :=
  {| isPlaying := isPlaying prev; progress := progress prev;
     duration := duration prev; volume := x |}.

End Preview.

Module PlayerContext.

(** The [then] handler attached to the promise of [audio.play()]. *)
Inductive Then : Type :=
| ThenPlayTrack   (* isPlaying: true, progress: 0   (line 126) *)
| ThenTogglePlay  (* isPlaying: true                (line 142) *)
| ThenNothing.    (* only [.catch(console.error)]   (line 84)  *)

(** Calls made by an action: a method of the remote adapter, or an
    operation on the audio element. *)
Inductive Call : Type :=
| Remote (m : SpotifyPlayer.Method)
| AudioSetSrc (url : string)
| AudioPlay (k : Then)
| AudioPause
| AudioSetCurrentTime (time : Q)
| AudioSetVolume (volume : Q).

Definition is_remote (c : Call) : bool :=
  match c with Remote _ => true | _ => false end.

Definition starts_audio (c : Call) : bool :=
  match c with AudioPlay _ => true | _ => false end.

(** The state of the provider between two renders.  [audioRef] tells
    whether [audioRef.current] holds the audio element. *)
Record Provider : Type := mkProvider {
  spotifyPlayer : SpotifyPlayer.Hook;
  localQueue : list SpotifyTrack;
  localIndex : Z;
  localTrack : option SpotifyTrack;
  audioRef : bool;
  previewState : Preview.PreviewState
}.

Definition initial : Provider :=
  {| spotifyPlayer := {| SpotifyPlayer.state := SpotifyPlayer.initial;
                         SpotifyPlayer.playerRef := false |};
     localQueue := []; localIndex := 0; localTrack := None;
     audioRef := false; previewState := Preview.initial |}.

(** The first effect: [audioRef.current = new Audio()]. *)
Definition mount (p : Provider) : Provider :=
  {| spotifyPlayer := spotifyPlayer p; localQueue := localQueue p;
     localIndex := localIndex p; localTrack := localTrack p;
     audioRef := true; previewState := previewState p |}.

Definition setPreviewState (f : Preview.PreviewState -> Preview.PreviewState)
    (p : Provider) : Provider :=
  {| spotifyPlayer := spotifyPlayer p; localQueue := localQueue p;
     localIndex := localIndex p; localTrack := localTrack p;
     audioRef := audioRef p; previewState := f (previewState p) |}.

Definition setLocalQueue (q : list SpotifyTrack) (p : Provider) : Provider :=
  {| spotifyPlayer := spotifyPlayer p; localQueue := q;
     localIndex := localIndex p; localTrack := localTrack p;
     audioRef := audioRef p; previewState := previewState p |}.

Definition setLocalIndex (i : Z) (p : Provider) : Provider :=
  {| spotifyPlayer := spotifyPlayer p; localQueue := localQueue p;
     localIndex := i; localTrack := localTrack p;
     audioRef := audioRef p; previewState := previewState p |}.

Definition setLocalTrack (t : option SpotifyTrack) (p : Provider) : Provider :=
  {| spotifyPlayer := spotifyPlayer p; localQueue := localQueue p;
     localIndex := localIndex p; localTrack := t;
     audioRef := audioRef p; previewState := previewState p |}.

(** The remote adapter's state changes under the provider. *)
Definition setRemote (s : SpotifyPlayer.PlayerState) (p : Provider) : Provider :=
  {| spotifyPlayer := {| SpotifyPlayer.state := s;
                         SpotifyPlayer.playerRef :=
                           SpotifyPlayer.playerRef (spotifyPlayer p) |};
     localQueue := localQueue p; localIndex := localIndex p;
     localTrack := localTrack p; audioRef := audioRef p;
     previewState := previewState p |}.

Definition remote (p : Provider) : SpotifyPlayer.PlayerState :=
  SpotifyPlayer.state (spotifyPlayer p).

(** Line 46: [!!(spotifyPlayer.isReady && spotifyPlayer.deviceId)]. *)
Definition isPremiumPlayer (p : Provider) : bool :=
  SpotifyPlayer.isReady (remote p) && truthy_opt (SpotifyPlayer.deviceId (remote p)).

(** *** Listeners of the audio element (lines 68-95)

    They are installed by an effect that returns early when there is no
    audio element, so [audio] is set whenever one of them runs. *)

Definition handleTimeUpdate (currentTime : Q) (p : Provider) : Provider :=
  setPreviewState (Preview.with_progress currentTime) p.

Definition handleLoadedMetadata (audio_duration : Q) (p : Provider) : Provider :=
  setPreviewState (Preview.with_duration audio_duration) p.

Definition handleEnded (p : Provider) : Provider * list Call :=
  let p1 := setPreviewState (Preview.with_isPlaying false) p in
  if (length (localQueue p) >? 0)%Z then
    let nextIdx := Z.rem (localIndex p + 1) (length (localQueue p)) in
    let nextTrack := get (localQueue p) nextIdx in
    match nextTrack with
    | Some t =>
        match preview_url t with
        | Some url =>
            if truthy_string url then
              (setPreviewState (Preview.with_isPlaying true)
                 (setLocalTrack (Some t) (setLocalIndex nextIdx p1)),
               [AudioSetSrc url; AudioPlay ThenNothing])
            else (p1, [])
        | None => (p1, [])
        end
    | None => (p1, [])
    end
  else (p1, []).

Definition handleError (p : Provider) : Provider :=
  setPreviewState (Preview.with_isPlaying false) p.

(** The promise of [audio.play()] is fulfilled. *)
Definition play_fulfilled (k : Then) (p : Provider) : Provider :=
  match k with
  | ThenPlayTrack =>
      setPreviewState (fun prev => Preview.with_progress 0 (Preview.with_isPlaying true prev)) p
  | ThenTogglePlay => setPreviewState (Preview.with_isPlaying true) p
  | ThenNothing => p
  end.

(** *** Actions (lines 110-183)

    [playTrack] is also called with [localQueue[i]], which is [undefined]
    out of range: reading [track.id] or [track.preview_url] then throws,
    on every path of the function. *)

Definition playTrack (track : option SpotifyTrack)
    (queue : option (list SpotifyTrack)) (p : Provider)
    : completion (Provider * list Call) :=
  match track with
  | None => Throw "TypeError: Cannot read properties of undefined"
  | Some t =>
      let p1 :=
        match queue with
        | Some q =>
            let idx := findIndex (fun t' => String.eqb (id t') (id t)) q in
            setLocalIndex (if (idx >=? 0)%Z then idx else 0%Z) (setLocalQueue q p)
        | None => p
        end in
      let p2 := setLocalTrack (Some t) p1 in
      if isPremiumPlayer p then
        Normal (p2, [Remote (SpotifyPlayer.play ("spotify:track:" ++ id t) None)])
      else if truthy_opt (preview_url t) && audioRef p then
        match preview_url t with
        | Some url => Normal (p2, [AudioSetSrc url; AudioPlay ThenPlayTrack])
        | None => Normal (p2, [])
        end
      else Normal (p2, [])
  end.

Definition togglePlay (p : Provider) : Provider * list Call :=
  if isPremiumPlayer p then (p, [Remote SpotifyPlayer.togglePlay])
  else if audioRef p then
    if Preview.isPlaying (previewState p) then
      (setPreviewState (Preview.with_isPlaying false) p, [AudioPause])
    else (p, [AudioPlay ThenTogglePlay])
  else (p, []).

Definition handleNextTrack (p : Provider) : completion (Provider * list Call) :=
  if isPremiumPlayer p then Normal (p, [Remote SpotifyPlayer.nextTrack])
  else if (length (localQueue p) >? 0)%Z then
    let nextIdx := Z.rem (localIndex p + 1) (length (localQueue p)) in
    playTrack (get (localQueue p) nextIdx) (Some (localQueue p)) p
  else Normal (p, []).

Definition handlePreviousTrack (p : Provider) : completion (Provider * list Call) :=
  if isPremiumPlayer p then Normal (p, [Remote SpotifyPlayer.previousTrack])
  else if (length (localQueue p) >? 0)%Z then
    let prevIdx := if (localIndex p =? 0)%Z then (length (localQueue p) - 1)%Z
                   else (localIndex p - 1)%Z in
    playTrack (get (localQueue p) prevIdx) (Some (localQueue p)) p
  else Normal (p, []).

Definition seek (time : Q) (p : Provider) : Provider * list Call :=
  if isPremiumPlayer p then (p, [Remote (SpotifyPlayer.seek (num_mul time 1000))])
  else if audioRef p then
    (setPreviewState (Preview.with_progress time) p, [AudioSetCurrentTime time])
  else (p, []).

(** Assigning [audio.volume] throws an [IndexSizeError] outside [0, 1]
    (line 180), before [setPreviewState] is reached. *)
Definition handleSetVolume (volume : Q) (p : Provider)
    : completion (Provider * list Call) :=
  if isPremiumPlayer p then Normal (p, [Remote (SpotifyPlayer.setVolume volume)])
  else if audioRef p then
    if Qle_bool 0 volume && Qle_bool volume 1 then
      Normal (setPreviewState (Preview.with_volume volume) p, [AudioSetVolume volume])
    else Throw "IndexSizeError: the volume is outside the range [0, 1]"
  else Normal (p, []).

(** *** The merged read model (lines 186-212) *)

Record PlayerContextType : Type := mkValue {
  currentTrack : option SpotifyTrack;
  isPlaying : bool;
  progress : Q;
  duration : Q;
  volume : Q;
  isReady : bool;
  isPremium : bool;
  queue : list SpotifyTrack;
  currentIndex : Z
}.

Definition value (p : Provider) : PlayerContextType :=
  {| currentTrack := if isPremiumPlayer p then SpotifyPlayer.currentTrack (remote p)
                     else localTrack p;
     isPlaying := if isPremiumPlayer p then negb (SpotifyPlayer.isPaused (remote p))
                  else Preview.isPlaying (previewState p);
     progress := if isPremiumPlayer p then num_div (SpotifyPlayer.position (remote p)) 1000
                 else Preview.progress (previewState p);
     duration := if isPremiumPlayer p then num_div (SpotifyPlayer.duration (remote p)) 1000
                 else or_number (Preview.duration (previewState p)) 30;
     volume := if isPremiumPlayer p then SpotifyPlayer.volume (remote p)
               else Preview.volume (previewState p);
     isReady := SpotifyPlayer.isReady (remote p);
     isPremium := isPremiumPlayer p;
     queue := localQueue p;
     currentIndex := localIndex p |}.

(** *** The action surface as one type *)

Inductive Action : Type :=
| PlayTrack (track : SpotifyTrack) (queue : option (list SpotifyTrack))
| TogglePlay
| NextTrack
| PreviousTrack
| Seek (time : Q)
| SetVolume (volume : Q).

Definition run (a : Action) (p : Provider) : completion (Provider * list Call) :=
  match a with
  | PlayTrack t q => playTrack (Some t) q p
  | TogglePlay => Normal (togglePlay p)
  | NextTrack => handleNextTrack p
  | PreviousTrack => handlePreviousTrack p
  | Seek t => Normal (seek t p)
  | SetVolume v => handleSetVolume v p
  end.

(** The method of the remote adapter that an action stands for. *)
Definition remote_method (a : Action) : SpotifyPlayer.Method :=
  match a with
  | PlayTrack t _ => SpotifyPlayer.play ("spotify:track:" ++ id t) None
  | TogglePlay => SpotifyPlayer.togglePlay
  | NextTrack => SpotifyPlayer.nextTrack
  | PreviousTrack => SpotifyPlayer.previousTrack
  | Seek t => SpotifyPlayer.seek (num_mul t 1000)
  | SetVolume v => SpotifyPlayer.setVolume v
  end.

(** The state an action leaves, when it returns. *)
Definition state_after (c : completion (Provider * list Call)) : option Provider :=
  match c with Normal (p, _) => Some p | Throw _ => None end.

Definition calls_of (c : completion (Provider * list Call)) : list Call :=
  match c with Normal (_, cs) => cs | Throw _ => [] end.

End PlayerContext.

(** ** Sample data *)

Module Samples.

Definition track (i : string) (url : option string) : SpotifyTrack :=
  {| id := i; name := i; duration_ms := 30000;
     album := {| album_id := None; album_name := None; album_images := [] |};
     artists := []; preview_url := url |}.

Definition A : SpotifyTrack := track "a" (Some "https://p.scdn.co/a.mp3").
Definition B : SpotifyTrack := track "b" (Some "https://p.scdn.co/b.mp3").
Definition C : SpotifyTrack := track "c" (Some "https://p.scdn.co/c.mp3").
(** A track that cannot be played by the fallback. *)
Definition N : SpotifyTrack := track "n" None.

(** The provider after its mount effects, nothing requested yet. *)
Definition mounted : PlayerContext.Provider :=
  PlayerContext.mount PlayerContext.initial.

(** The remote adapter after [ready] with device "dev1". *)
Definition dev1 : SpotifyPlayer.PlayerState :=
  SpotifyPlayer.on_ready true {| SpotifyPlayer.device_id := "dev1" |}
    SpotifyPlayer.initial.

Definition premium : PlayerContext.Provider :=
  PlayerContext.setRemote dev1 mounted.

(** The fallback with a queue and a position in it. *)
Definition local (q : list SpotifyTrack) (i : Z) : PlayerContext.Provider :=
  PlayerContext.setLocalTrack (get q i)
    (PlayerContext.setLocalIndex i (PlayerContext.setLocalQueue q mounted)).

(** The remote adapter once the vendor player reports a playing track. *)
Definition now_playing : SpotifyPlayer.PlayerState :=
  SpotifyPlayer.on_player_state_changed true
    (Some {| SpotifyPlayer.paused := false;
             SpotifyPlayer.ws_position := 42000;
             SpotifyPlayer.current_track :=
               Some {| SpotifyPlayer.wt_id := "a";
                       SpotifyPlayer.wt_name := "a";
                       SpotifyPlayer.wt_duration_ms := 180000;
                       SpotifyPlayer.wt_album :=
                         Some {| SpotifyPlayer.wb_uri := Some "spotify:album:alb1";
                                 SpotifyPlayer.wb_name := Some "album";
                                 SpotifyPlayer.wb_images := None |};
                       SpotifyPlayer.wt_artists :=
                         Some [{| SpotifyPlayer.wa_uri := Some "spotify:artist:art1";
                                  SpotifyPlayer.wa_name := Some "artist" |}] |} |})
    dev1.

(** The fallback while the preview of [A] plays: [playTrack(A, [A, N])]
    on the mounted provider, then the promise of [audio.play()]
    fulfilled. *)
Definition playing_A : PlayerContext.Provider :=
  match PlayerContext.playTrack (Some A) (Some [A; N]) mounted with
  | Normal (p, _) => PlayerContext.play_fulfilled PlayerContext.ThenPlayTrack p
  | Throw _ => mounted
  end.

End Samples.

(** ** Notions used in the statements *)

(** A [player_state_changed] event that carries a state. *)
Definition real_update (e : SpotifyPlayer.Event) : bool :=
  match e with
  | SpotifyPlayer.StateChanged (Some _) => true
  | _ => false
  end.

(** A [ready] or [not_ready] event. *)
Definition connection_event (e : SpotifyPlayer.Event) : bool :=
  match e with
  | SpotifyPlayer.Ready _ | SpotifyPlayer.NotReady _ => true
  | _ => false
  end.

(** The bound the spec asks of a progress and a duration. *)
Definition clamped (progress duration : Q) : Prop :=
  0 <= progress /\ progress <= duration.

(** No call of the list starts the audio element. *)
Definition no_audio_started (cs : list PlayerContext.Call) : Prop :=
  forallb (fun c => negb (PlayerContext.starts_audio c)) cs = true.

(** The position is an index of the queue, or 0 on the empty queue. *)
Definition index_valid (p : PlayerContext.Provider) : Prop :=
  (0 <= PlayerContext.localIndex p)%Z /\
  (PlayerContext.localIndex p < Z.max 1 (length (PlayerContext.localQueue p)))%Z.

(** [next] and then [previous], each on the state the last render left. *)
Definition next_then_previous (p : PlayerContext.Provider)
    : completion (PlayerContext.Provider * list PlayerContext.Call) :=
  match PlayerContext.handleNextTrack p with
  | Normal (p1, cs1) =>
      match PlayerContext.handlePreviousTrack p1 with
      | Normal (p2, cs2) => Normal (p2, (cs1 ++ cs2)%list)
      | Throw e => Throw e
      end
  | Throw e => Throw e
  end.

(** The index an action leaves, when it returns. *)
Definition index_after (c : completion (PlayerContext.Provider * list PlayerContext.Call))
    : option Z :=
  option_map PlayerContext.localIndex (PlayerContext.state_after c).

(** ** Mount and teardown *)

(** [arr.join(sep)] for a one-character separator. *)
Fixpoint join (sep : ascii) (l : list string) : string :=
  match l with
  | [] => ""
  | w :: rest =>
      match rest with
      | [] => w
      | _ :: _ => w ++ String sep (join sep rest)
      end
  end.

Module Lifecycle.

(** The document as the ids of its elements, in order. *)
Definition getElementById (document : list string) (i : string) : bool :=
  existsb (String.eqb i) document.

(** Lines 61-67 of the adapter: the script element is appended unless an
    element with its id is there. *)
Definition load_sdk (document : list string) : list string :=
  if negb (getElementById document "spotify-sdk")
  then (document ++ ["spotify-sdk"])%list
  else document.

(** The mount effect of the adapter up to the script (lines 52-67): nothing
    happens unless [isAuthenticated()]. *)
Definition initialize (authenticated : bool) (document : list string) : list string :=
  if authenticated then load_sdk document else document.

(** [window.onSpotifyWebPlaybackSDKReady] (lines 69-146).  [isMounted] is
    the flag when the hook is called, [token] what [getValidAccessToken]
    resolves to, [stillMounted] the flag once it has; [constructed] tells
    whether the [try] block ran to its end.  The result is the hook with
    [playerRef.current] set after [connect()]. *)
Definition onSpotifyWebPlaybackSDKReady (isMounted : bool) (token : option string)
    (stillMounted constructed : bool) (h : SpotifyPlayer.Hook) : SpotifyPlayer.Hook :=
  if negb isMounted then h
  else if negb (truthy_opt token) || negb stillMounted then h
  else if constructed
       then {| SpotifyPlayer.state := SpotifyPlayer.state h;
               SpotifyPlayer.playerRef := true |}
       else h.

(** The cleanup of the adapter's mount effect (lines 154-160); the boolean
    tells whether [disconnect()] was called. *)
Definition cleanup (h : SpotifyPlayer.Hook) : SpotifyPlayer.Hook * bool :=
  if SpotifyPlayer.playerRef h
  then ({| SpotifyPlayer.state := SpotifyPlayer.state h;
           SpotifyPlayer.playerRef := false |}, true)
  else (h, false).

Definition setHook (h : SpotifyPlayer.Hook) (p : PlayerContext.Provider)
    : PlayerContext.Provider :=
  {| PlayerContext.spotifyPlayer := h;
     PlayerContext.localQueue := PlayerContext.localQueue p;
     PlayerContext.localIndex := PlayerContext.localIndex p;
     PlayerContext.localTrack := PlayerContext.localTrack p;
     PlayerContext.audioRef := PlayerContext.audioRef p;
     PlayerContext.previewState := PlayerContext.previewState p |}.

(** The cleanup of the coordinator's first effect (lines 55-60): the audio
    element is paused and the reference cleared. *)
Definition unmount (p : PlayerContext.Provider)
    : PlayerContext.Provider * list PlayerContext.Call :=
  if PlayerContext.audioRef p
  then ({| PlayerContext.spotifyPlayer := PlayerContext.spotifyPlayer p;
           PlayerContext.localQueue := PlayerContext.localQueue p;
           PlayerContext.localIndex := PlayerContext.localIndex p;
           PlayerContext.localTrack := PlayerContext.localTrack p;
           PlayerContext.audioRef := false;
           PlayerContext.previewState := PlayerContext.previewState p |},
        [PlayerContext.AudioPause])
  else (p, []).

End Lifecycle.

(** ** The provider under everything that can happen to it *)

Module System.

Inductive Input : Type :=
| Act (a : PlayerContext.Action)
| AudioEnded
| AudioTimeUpdate (currentTime : Q)
| AudioLoadedMetadata (audio_duration : Q)
| AudioError
| PlayFulfilled (k : PlayerContext.Then)
| Sdk (isMounted : bool) (e : SpotifyPlayer.Event)
| SdkReady (isMounted : bool) (token : option string) (stillMounted constructed : bool)
| MethodResolved (m : SpotifyPlayer.Method)
| Mount
| Unmount
| Cleanup.

(** One input on the state of the last render.  The listeners of the audio
    element exist only while there is an audio element. *)
Definition step (i : Input) (p : PlayerContext.Provider)
    : completion PlayerContext.Provider :=
  match i with
  | Act a =>
      match PlayerContext.run a p with
      | Normal (p', _) => Normal p'
      | Throw e => Throw e
      end
  | AudioEnded =>
      Normal (if PlayerContext.audioRef p then fst (PlayerContext.handleEnded p) else p)
  | AudioTimeUpdate t =>
      Normal (if PlayerContext.audioRef p then PlayerContext.handleTimeUpdate t p else p)
  | AudioLoadedMetadata d =>
      Normal (if PlayerContext.audioRef p then PlayerContext.handleLoadedMetadata d p else p)
  | AudioError =>
      Normal (if PlayerContext.audioRef p then PlayerContext.handleError p else p)
  | PlayFulfilled k => Normal (PlayerContext.play_fulfilled k p)
  | Sdk isMounted e =>
      Normal (PlayerContext.setRemote
                (SpotifyPlayer.deliver isMounted e (PlayerContext.remote p)) p)
  | SdkReady isMounted token stillMounted constructed =>
      Normal (Lifecycle.setHook
                (Lifecycle.onSpotifyWebPlaybackSDKReady isMounted token stillMounted
                   constructed (PlayerContext.spotifyPlayer p)) p)
  | MethodResolved m =>
      Normal (Lifecycle.setHook
                (SpotifyPlayer.resolved m (PlayerContext.spotifyPlayer p)) p)
  | Mount => Normal (PlayerContext.mount p)
  | Unmount => Normal (fst (Lifecycle.unmount p))
  | Cleanup =>
      Normal (Lifecycle.setHook (fst (Lifecycle.cleanup (PlayerContext.spotifyPlayer p))) p)
  end.

Fixpoint steps (inputs : list Input) (p : PlayerContext.Provider)
    : completion PlayerContext.Provider :=
  match inputs with
  | [] => Normal p
  | i :: rest =>
      match step i p with
      | Normal p' => steps rest p'
      | Throw e => Throw e
      end
  end.

(** What the vendor player and the Web API receive from the calls of an
    action. *)
Definition forward (token : option string) (h : SpotifyPlayer.Hook)
    (cs : list PlayerContext.Call) : list SpotifyPlayer.SdkCall :=
  flat_map (fun c => match c with
                     | PlayerContext.Remote m => SpotifyPlayer.invoke token m h
                     | _ => []
                     end) cs.

End System.

(** The payload of a real update lies within its track: the position is
    between 0 and the duration of the current track, and 0 without one. *)
Definition payload_clamped (e : SpotifyPlayer.Event) : Prop :=
  match e with
  | SpotifyPlayer.StateChanged (Some ps) =>
      match SpotifyPlayer.current_track ps with
      | Some t => 0 <= SpotifyPlayer.ws_position ps /\
                  SpotifyPlayer.ws_position ps <= SpotifyPlayer.wt_duration_ms t
      | None => SpotifyPlayer.ws_position ps == 0
      end
  | _ => True
  end.


(** Every track of the queue has a preview the fallback can play. *)
Definition all_playable (q : list SpotifyTrack) : Prop :=
  Forall (fun t => truthy_opt (preview_url t) = true) q.

(** ** Facts about the JavaScript helpers *)

(** *** Rounding to a double *)

Lemma round_half_even_nonneg :
  forall N D : Z, (0 <= N)%Z -> (0 < D)%Z -> (0 <= round_half_even N D)%Z.
Proof.
  intros N D HN HD. unfold round_half_even.
  pose proof (Z.div_pos N D HN HD) as Hq.
  destruct (2 * (N mod D) ?= D)%Z; [destruct (Z.even (N / D))| |]; lia.
Qed.

Lemma round_half_even_exact :
  forall N : Z, round_half_even N 1 = N.
Proof.
  intros N. unfold round_half_even. rewrite Z.mod_1_r, Z.div_1_r. reflexivity.
Qed.

Lemma round_pos_nonneg :
  forall a d : Z, (0 < a)%Z -> (0 < d)%Z -> 0 <= round_pos a d.
Proof.
  intros a d Ha Hd. unfold round_pos.
  set (u := Z.max _ (-1074)).
  destruct (0 <=? u)%Z eqn:Hu.
  - apply Z.leb_le in Hu.
    change 0 with (inject_Z 0). rewrite <- Zle_Qle.
    apply Z.mul_nonneg_nonneg; [|apply Z.pow_nonneg; lia].
    apply round_half_even_nonneg; [lia|].
    apply Z.mul_pos_pos; [exact Hd | apply Z.pow_pos_nonneg; lia].
  - unfold Qle. cbn [Qnum Qden]. rewrite Z.mul_1_r.
    apply round_half_even_nonneg; [|exact Hd].
    apply Z.mul_nonneg_nonneg; [lia | apply Z.pow_nonneg; lia].
Qed.

(** The double depends on the value only, not on how the rational is
    written. *)
Lemma round_double_compat :
  forall x y : Q, x == y -> round_double x = round_double y.
Proof.
  intros x y H. unfold round_double. rewrite (Qred_complete x y H). reflexivity.
Qed.

(** Rounding keeps the sign. *)
Lemma round_double_nonneg :
  forall x : Q, 0 <= x -> 0 <= round_double x.
Proof.
  intros x Hx. unfold round_double.
  assert (Hr : 0 <= Qred x) by (rewrite Qred_correct; exact Hx).
  destruct (Qred x) as [n d]. cbn [Qnum Qden].
  destruct n as [|a|a].
  - apply Qle_refl.
  - rewrite Qred_correct. apply round_pos_nonneg; reflexivity.
  - exfalso. unfold Qle in Hr. simpl in Hr. lia.
Qed.

(** The whole numbers below [2 ^ 53] are doubles: rounding keeps them. *)
Lemma round_double_integer :
  forall k : Z, (0 <= k < 2 ^ 53)%Z -> round_double (inject_Z k) == inject_Z k.
Proof.
  intros k [Hlo Hhi]. unfold round_double.
  rewrite Qcanon.Qred_identity by (simpl; apply Z.gcd_1_r).
  cbn [Qnum Qden inject_Z].
  destruct k as [|a|a]; [reflexivity| |lia].
  rewrite Qred_correct.
  unfold round_pos. change (Z.log2 1) with 0%Z. rewrite Z.sub_0_r.
  set (L := Z.log2 (Z.pos a)).
  assert (HL : (0 <= L < 53)%Z).
  { split; [apply Z.log2_nonneg|]. apply Z.log2_lt_pow2; lia. }
  pose proof (Z.log2_spec (Z.pos a) ltac:(lia)) as [Hspec _]. fold L in Hspec.
  rewrite (Z.max_l 0 (- L)) by lia. rewrite (Z.max_r 0 L) by lia.
  change (2 ^ 0)%Z with 1%Z. rewrite Z.mul_1_r, Z.mul_1_l.
  destruct (Z.ltb_spec (Z.pos a) (2 ^ L)); [lia|].
  rewrite (Z.max_l (L - 52) (-1074)) by lia.
  destruct (Z.leb_spec 0 (L - 52)) as [Hu|Hu].
  - replace (L - 52)%Z with 0%Z by lia.
    change (2 ^ 0)%Z with 1%Z. rewrite Z.mul_1_l, round_half_even_exact, Z.mul_1_r.
    reflexivity.
  - rewrite round_half_even_exact.
    unfold Qeq, inject_Z. cbn [Qnum Qden].
    rewrite Z2Pos.id by (apply Z.pow_pos_nonneg; lia). ring.
Qed.

(** Two products and a quotient as the code computes them: [64.1 * 1000]
    is 64099.99999999999 and not 64100, and [99.3134 * 1000 / 1000] is
    not 99.3134. *)
Example round_double_samples :
  num_mul (round_double (641 # 10)) 1000 = 8809836917555199 # 137438953472 /\
  ~ num_mul (round_double (641 # 10)) 1000 == 64100 /\
  ~ num_div (num_mul (round_double (993134 # 10000)) 1000) 1000
    == round_double (993134 # 10000) /\
  num_mul 12 1000 = 12000 /\
  num_div 42000 1000 = 42.
Proof.
  repeat split; try (vm_compute; reflexivity); vm_compute; discriminate.
Qed.

Section FindIndex.

Context {A : Type} (f : A -> bool).

Lemma findIndex_from_found :
  forall (arr : list A) (i : Z) (k : nat) (x : A),
    nth_error arr k = Some x ->
    f x = true ->
    (forall j y, (j < k)%nat -> nth_error arr j = Some y -> f y = false) ->
    findIndex_from f arr i = (i + Z.of_nat k)%Z.
Proof.
  induction arr as [|a arr IH]; intros i k x Hk Hx Hbefore.
  - destruct k; discriminate.
  - destruct k as [|k]; simpl in *.
    + injection Hk as ->. rewrite Hx. lia.
    + rewrite (Hbefore 0%nat a) by (reflexivity || lia).
      rewrite (IH (i + 1)%Z k x Hk Hx).
      * lia.
      * intros j y Hj Hy. apply (Hbefore (S j) y); [lia | exact Hy].
Qed.

Lemma findIndex_from_absent :
  forall (arr : list A) (i : Z),
    (forall x, In x arr -> f x = false) ->
    findIndex_from f arr i = (-1)%Z.
Proof.
  induction arr as [|a arr IH]; intros i Hnone; simpl.
  - reflexivity.
  - rewrite (Hnone a) by (left; reflexivity).
    apply IH. intros x Hx. apply Hnone. right. exact Hx.
Qed.

(** Either no element satisfies [f], or there is a first one. *)
Lemma first_match_dec :
  forall arr : list A,
    (forall x, In x arr -> f x = false) \/
    (exists k x, nth_error arr k = Some x /\ f x = true /\
                 forall j y, (j < k)%nat -> nth_error arr j = Some y -> f y = false).
Proof.
  induction arr as [|a arr IH].
  - left. intros x [].
  - destruct (f a) eqn:Ha.
    + right. exists 0%nat, a. repeat split; trivial.
      intros j y Hj. lia.
    + destruct IH as [Hnone | (k & x & Hk & Hx & Hbefore)].
      * left. intros x [<- | Hin]; auto.
      * right. exists (S k), x. repeat split; trivial.
        intros [|j] y Hj Hy; simpl in Hy.
        -- injection Hy as <-. exact Ha.
        -- apply (Hbefore j y); [lia | exact Hy].
Qed.

End FindIndex.

Lemma get_Some_range :
  forall (A : Type) (arr : list A) (i : Z),
    (0 <= i < length arr)%Z -> exists x, get arr i = Some x.
Proof.
  intros A arr i [Hlo Hhi]. unfold get, length in *.
  destruct (Z.ltb_spec i 0); [lia|].
  destruct (nth_error arr (Z.to_nat i)) eqn:E.
  - eauto.
  - apply nth_error_None in E. lia.
Qed.

Lemma get_of_nat :
  forall (A : Type) (arr : list A) (k : nat),
    get arr (Z.of_nat k) = nth_error arr k.
Proof.
  intros A arr k. unfold get.
  destruct (Z.ltb_spec (Z.of_nat k) 0); [lia|].
  now rewrite Nat2Z.id.
Qed.

(** In a queue whose ids are pairwise distinct, looking a track of the
    queue up by id gives back its position. *)
Lemma findIndex_distinct_ids :
  forall (q : list SpotifyTrack) (k : nat) (t : SpotifyTrack),
    NoDup (map id q) ->
    nth_error q k = Some t ->
    findIndex (fun t' => String.eqb (id t') (id t)) q = Z.of_nat k.
Proof.
  intros q k t Hnd Hk. unfold findIndex.
  rewrite (findIndex_from_found _ q 0%Z k t Hk).
  - lia.
  - apply String.eqb_refl.
  - intros j y Hj Hy. apply String.eqb_neq. intros Heq.
    assert (Hlen : (j < List.length (map id q))%nat).
    { rewrite length_map. apply nth_error_Some. congruence. }
    pose proof (proj1 (NoDup_nth_error (map id q)) Hnd j k Hlen) as Hinj.
    rewrite !nth_error_map, Hy, Hk in Hinj. simpl in Hinj.
    rewrite Heq in Hinj. specialize (Hinj eq_refl). lia.
Qed.

(** ** The remote adapter *)

Section RemoteAdapter.

Import SpotifyPlayer.

Variable prev : PlayerState.

(** A null [player_state_changed] clears [isActive], hence uninstalls the
    position interval. *)
Lemma null_update_stops_interval :
  interval_installed (on_player_state_changed true None prev) = false.
Proof. reflexivity. Qed.

(** While inactive, no event but a real update touches what a real
    update wrote. *)
Lemma inactive_frame :
  forall (isMounted : bool) (es : list Event) (s : PlayerState),
    isActive s = false ->
    Forall (fun e => real_update e = false) es ->
    let s' := deliver_all isMounted es s in
    isActive s' = false /\
    isPaused s' = isPaused s /\
    currentTrack s' = currentTrack s /\
    position s' = position s /\
    duration s' = duration s /\
    volume s' = volume s.
Proof.
  intros isMounted es. induction es as [|e es IH]; intros s Hs Hall; simpl.
  - repeat split; trivial.
  - inversion Hall as [|e' es' He Hes]; subst.
    assert (Hstep : isActive (deliver isMounted e s) = false /\
                    isPaused (deliver isMounted e s) = isPaused s /\
                    currentTrack (deliver isMounted e s) = currentTrack s /\
                    position (deliver isMounted e s) = position s /\
                    duration (deliver isMounted e s) = duration s /\
                    volume (deliver isMounted e s) = volume s).
    { destruct e as [ev|ev|[ps|]|m|m|m|]; try discriminate He;
        destruct isMounted; simpl;
        unfold tick, interval_installed; rewrite ?Hs; simpl; repeat split; trivial. }
    destruct Hstep as (Ha & Hp & Ht & Hpos & Hd & Hv).
    destruct (IH (deliver isMounted e s) Ha Hes) as (Ha' & Hp' & Ht' & Hpos' & Hd' & Hv').
    unfold deliver_all in *. simpl in *.
    repeat split; congruence.
Qed.

(** Device id and readiness change with [ready] and [not_ready] only. *)
Lemma connection_frame :
  forall (isMounted : bool) (es : list Event) (s : PlayerState),
    Forall (fun e => connection_event e = false) es ->
    deviceId (deliver_all isMounted es s) = deviceId s /\
    isReady (deliver_all isMounted es s) = isReady s.
Proof.
  intros isMounted es. induction es as [|e es IH]; intros s Hall.
  - split; reflexivity.
  - inversion Hall as [|e' es' He Hes]; subst.
    unfold deliver_all in *. simpl.
    destruct (IH (deliver isMounted e s) Hes) as [-> ->].
    destruct e as [ev|ev|[ps|]|m|m|m|]; try discriminate He;
      destruct isMounted; simpl; unfold tick;
      try destruct (interval_installed s); split; reflexivity.
Qed.

End RemoteAdapter.

(** C6: a null [player_state_changed] payload sets [isActive] to false and
    keeps every other field of the adapter's state (track, position,
    duration, paused flag, volume, device id, readiness); what the last real
    update wrote then stays as it is under every sequence of later events
    that has no real update in it, and so do device id and readiness as
    long as no [ready] or [not_ready] arrives.  The listener has no
    throwing operation. *)
Theorem C6_null_state_change :
  forall (prev : SpotifyPlayer.PlayerState) (es : list SpotifyPlayer.Event),
    Forall (fun e => real_update e = false) es ->
    let s := SpotifyPlayer.on_player_state_changed true None prev in
    let s' := SpotifyPlayer.deliver_all true es s in
    (SpotifyPlayer.isActive s = false /\
     SpotifyPlayer.currentTrack s = SpotifyPlayer.currentTrack prev /\
     SpotifyPlayer.position s = SpotifyPlayer.position prev /\
     SpotifyPlayer.duration s = SpotifyPlayer.duration prev /\
     SpotifyPlayer.isPaused s = SpotifyPlayer.isPaused prev /\
     SpotifyPlayer.volume s = SpotifyPlayer.volume prev /\
     SpotifyPlayer.deviceId s = SpotifyPlayer.deviceId prev /\
     SpotifyPlayer.isReady s = SpotifyPlayer.isReady prev) /\
    (SpotifyPlayer.isActive s' = false /\
     SpotifyPlayer.currentTrack s' = SpotifyPlayer.currentTrack prev /\
     SpotifyPlayer.position s' = SpotifyPlayer.position prev /\
     SpotifyPlayer.duration s' = SpotifyPlayer.duration prev /\
     SpotifyPlayer.isPaused s' = SpotifyPlayer.isPaused prev /\
     SpotifyPlayer.volume s' = SpotifyPlayer.volume prev) /\
    (Forall (fun e => connection_event e = false) es ->
     SpotifyPlayer.deviceId s' = SpotifyPlayer.deviceId prev /\
     SpotifyPlayer.isReady s' = SpotifyPlayer.isReady prev).
Proof.
  intros prev es Hes s s'. split; [|split].
  - subst s. simpl. repeat split; reflexivity.
  - destruct (inactive_frame true es s eq_refl Hes)
      as (Ha & Hp & Ht & Hpos & Hd & Hv).
    subst s s'. simpl in *. repeat split; assumption.
  - intros Hconn. subst s'.
    destruct (connection_frame true es s Hconn) as [-> ->].
    split; reflexivity.
Qed.

Lemma C6_null_state_change_witness :
  let es := [SpotifyPlayer.Tick; SpotifyPlayer.StateChanged None;
             SpotifyPlayer.AccountError "premium required"; SpotifyPlayer.Tick] in
  let s' := SpotifyPlayer.deliver_all true es
              (SpotifyPlayer.on_player_state_changed true None Samples.now_playing) in
  Forall (fun e => real_update e = false) es /\
  SpotifyPlayer.isActive s' = false /\
  SpotifyPlayer.position s' = 42000 /\
  SpotifyPlayer.duration s' = 180000 /\
  SpotifyPlayer.isPaused s' = false /\
  SpotifyPlayer.deviceId s' = Some "dev1".
Proof.
  intros es s'.
  assert (Hes : Forall (fun e => real_update e = false) es)
    by (repeat constructor).
  assert (Hconn : Forall (fun e => connection_event e = false) es)
    by (repeat constructor).
  split; [exact Hes|].
  destruct (C6_null_state_change Samples.now_playing es Hes)
    as (_ & (Ha & _ & Hpos & Hd & Hp & _) & Hdev).
  destruct (Hdev Hconn) as [Hid _].
  repeat split; assumption.
Defined.

(** C9: [not_ready] sets [isReady] to false and keeps every other field,
    the device id included; the coordinator then reads the local fallback
    as authoritative whatever the device id is.  On the initial state,
    where no device id was ever set, the listener returns that same
    state. *)
Theorem C9_not_ready_keeps_device :
  forall (ev : SpotifyPlayer.DevicePayload) (prev : SpotifyPlayer.PlayerState)
         (p : PlayerContext.Provider),
    let s := SpotifyPlayer.on_not_ready true ev prev in
    SpotifyPlayer.isReady s = false /\
    SpotifyPlayer.deviceId s = SpotifyPlayer.deviceId prev /\
    SpotifyPlayer.isActive s = SpotifyPlayer.isActive prev /\
    SpotifyPlayer.isPaused s = SpotifyPlayer.isPaused prev /\
    SpotifyPlayer.currentTrack s = SpotifyPlayer.currentTrack prev /\
    SpotifyPlayer.position s = SpotifyPlayer.position prev /\
    SpotifyPlayer.duration s = SpotifyPlayer.duration prev /\
    SpotifyPlayer.volume s = SpotifyPlayer.volume prev /\
    PlayerContext.isPremiumPlayer (PlayerContext.setRemote s p) = false /\
    SpotifyPlayer.on_not_ready true ev SpotifyPlayer.initial = SpotifyPlayer.initial.
Proof.
  intros ev prev p s. subst s. simpl.
  repeat split; reflexivity.
Qed.

(** ** The coordinator *)

Section Coordinator.

Import PlayerContext.

(** [playTrack] on a track returns, and this is the state it leaves. *)
Lemma playTrack_returns :
  forall (p : Provider) (t : SpotifyTrack) (queue : option (list SpotifyTrack)),
  exists cs,
    playTrack (Some t) queue p =
    Normal (setLocalTrack (Some t)
              (match queue with
               | Some q =>
                   let idx := findIndex (fun t' => String.eqb (id t') (id t)) q in
                   setLocalIndex (if (idx >=? 0)%Z then idx else 0%Z) (setLocalQueue q p)
               | None => p
               end), cs).
Proof.
  intros p t queue. unfold playTrack.
  destruct (isPremiumPlayer p); [eauto|].
  destruct (truthy_opt (preview_url t) && audioRef p); [|eauto].
  destruct (preview_url t); eauto.
Qed.

(** On the fallback, a track without a playable preview makes no call. *)
Lemma playTrack_unplayable :
  forall (p : Provider) (t : SpotifyTrack) (queue : option (list SpotifyTrack)),
    isPremiumPlayer p = false ->
    truthy_opt (preview_url t) = false ->
    calls_of (playTrack (Some t) queue p) = [].
Proof.
  intros p t queue Hlocal Hurl. unfold playTrack.
  rewrite Hlocal, Hurl. reflexivity.
Qed.

(** No action on the fallback reaches the remote adapter. *)
Lemma playTrack_local_calls :
  forall (p : Provider) (track : option SpotifyTrack) (queue : option (list SpotifyTrack)),
    isPremiumPlayer p = false ->
    Forall (fun c => is_remote c = false) (calls_of (playTrack track queue p)).
Proof.
  intros p [t|] queue Hlocal; unfold playTrack; [|constructor].
  rewrite Hlocal.
  destruct (truthy_opt (preview_url t) && audioRef p); [|constructor].
  destruct (preview_url t); repeat constructor.
Qed.

End Coordinator.

(** C7: [playTrack(t, q)] returns, replaces the queue with [q] and sets the
    index to the first position of [q] whose track has the id of [t], or
    to 0 when no track of [q] has that id. *)
Theorem C7_playTrack_with_queue :
  forall (p : PlayerContext.Provider) (t : SpotifyTrack) (q : list SpotifyTrack),
  exists p' cs,
    PlayerContext.playTrack (Some t) (Some q) p = Normal (p', cs) /\
    PlayerContext.localQueue p' = q /\
    ((exists k t',
         nth_error q k = Some t' /\ id t' = id t /\
         (forall j u, (j < k)%nat -> nth_error q j = Some u -> id u <> id t) /\
         PlayerContext.localIndex p' = Z.of_nat k)
     \/
     ((forall u, In u q -> id u <> id t) /\ PlayerContext.localIndex p' = 0%Z)).
Proof.
  intros p t q.
  destruct (playTrack_returns p t (Some q)) as [cs Hrun].
  eexists. exists cs. split; [exact Hrun|]. simpl. split; [reflexivity|].
  set (f := fun t' : SpotifyTrack => String.eqb (id t') (id t)).
  destruct (first_match_dec f q) as [Hnone | (k & t' & Hk & Ht' & Hbefore)].
  - right. unfold findIndex. rewrite (findIndex_from_absent f q 0%Z Hnone).
    split; [|reflexivity].
    intros u Hu. apply String.eqb_neq. exact (Hnone u Hu).
  - left. exists k, t'. unfold findIndex.
    rewrite (findIndex_from_found f q 0%Z k t' Hk Ht' Hbefore).
    repeat split.
    + exact Hk.
    + apply String.eqb_eq. exact Ht'.
    + intros j u Hj Hu. apply String.eqb_neq. exact (Hbefore j u Hj Hu).
    + destruct (Z.geb_spec (0 + Z.of_nat k) 0); lia.
Qed.

(** C10: [playTrack(track)] without a queue returns and leaves the stored
    queue and the index as they were, whatever the track; of the
    coordinator's own state only the requested track changes. *)
Theorem C10_playTrack_without_queue :
  forall (p : PlayerContext.Provider) (t : SpotifyTrack),
  exists p' cs,
    PlayerContext.playTrack (Some t) None p = Normal (p', cs) /\
    PlayerContext.localQueue p' = PlayerContext.localQueue p /\
    PlayerContext.localIndex p' = PlayerContext.localIndex p /\
    PlayerContext.localTrack p' = Some t /\
    PlayerContext.previewState p' = PlayerContext.previewState p /\
    PlayerContext.spotifyPlayer p' = PlayerContext.spotifyPlayer p /\
    PlayerContext.audioRef p' = PlayerContext.audioRef p.
Proof.
  intros p t.
  destruct (playTrack_returns p t None) as [cs Hrun].
  eexists. exists cs. split; [exact Hrun|].
  repeat split; reflexivity.
Qed.

(** C3, as the code has it: on the fallback, [playTrack] with a track whose
    preview URL is absent (or empty) returns, makes no call on the audio
    element and leaves [isPlaying] as it was: false when it was false, and
    still true when a preview was playing. *)
Theorem C3_playTrack_without_preview :
  forall (p : PlayerContext.Provider) (t : SpotifyTrack)
         (queue : option (list SpotifyTrack)),
    PlayerContext.isPremiumPlayer p = false ->
    truthy_opt (preview_url t) = false ->
    exists p',
      PlayerContext.playTrack (Some t) queue p = Normal (p', []) /\
      PlayerContext.localTrack p' = Some t /\
      PlayerContext.previewState p' = PlayerContext.previewState p /\
      PlayerContext.isPlaying (PlayerContext.value p') =
      PlayerContext.isPlaying (PlayerContext.value p).
Proof.
  intros p t queue Hlocal Hurl.
  pose proof (playTrack_unplayable p t queue Hlocal Hurl) as Hcalls.
  destruct (playTrack_returns p t queue) as [cs Hrun].
  rewrite Hrun in Hcalls. simpl in Hcalls. subst cs.
  eexists. split; [exact Hrun|].
  assert (Hsame : forall p1 p2,
             PlayerContext.spotifyPlayer p1 = PlayerContext.spotifyPlayer p2 ->
             PlayerContext.isPremiumPlayer p1 = PlayerContext.isPremiumPlayer p2).
  { intros p1 p2 H. unfold PlayerContext.isPremiumPlayer, PlayerContext.remote.
    now rewrite H. }
  split; [reflexivity|].
  split; [destruct queue; reflexivity|].
  unfold PlayerContext.value. simpl.
  rewrite (Hsame _ p) by (destruct queue; reflexivity).
  destruct queue; reflexivity.
Qed.

Lemma C3_playTrack_without_preview_witness :
  PlayerContext.isPremiumPlayer Samples.mounted = false /\
  truthy_opt (preview_url Samples.N) = false /\
  exists p',
    PlayerContext.playTrack (Some Samples.N) None Samples.mounted = Normal (p', []) /\
    PlayerContext.isPlaying (PlayerContext.value p') = false.
Proof.
  split; [reflexivity|]. split; [reflexivity|].
  destruct (C3_playTrack_without_preview Samples.mounted Samples.N None
              eq_refl eq_refl) as (p' & Hrun & _ & _ & Hplaying).
  exists p'. split; [exact Hrun|]. exact Hplaying.
Defined.

(** C3 as stated fails while a preview plays: the fallback is
    authoritative, the requested track has no preview URL, the call
    returns, and [isPlaying] is true afterwards. *)
Lemma C3_counterexample :
  PlayerContext.isPremiumPlayer Samples.playing_A = false /\
  preview_url Samples.N = None /\
  exists p',
    PlayerContext.playTrack (Some Samples.N) None Samples.playing_A = Normal (p', []) /\
    PlayerContext.isPlaying (PlayerContext.value p') = true.
Proof.
  split; [reflexivity|]. split; [reflexivity|].
  eexists. split; reflexivity.
Qed.

(** *** Clip end on the fallback *)

Lemma next_index_wraps :
  forall (i n : Z),
    (0 <= i)%Z -> (0 < n)%Z ->
    Z.rem (i + 1) n = ((i + 1) mod n)%Z /\ (0 <= (i + 1) mod n < n)%Z.
Proof.
  intros i n Hi Hn. split.
  - apply Z.rem_mod_nonneg; lia.
  - apply Z.mod_pos_bound. exact Hn.
Qed.

Lemma length_pos :
  forall (A : Type) (arr : list A), arr <> [] -> (0 < length arr)%Z.
Proof.
  intros A [|a arr] H; [congruence|]. unfold length. simpl. lia.
Qed.

(** C2, as the code has it: at clip end on a non-empty queue the next track
    is chosen by wrap-around; when it has a preview URL the clip is loaded
    and played and index, track and [isPlaying] follow; when it has none,
    nothing is played, [isPlaying] is false, and index and track stay where
    they were.  The listener has no throwing operation. *)
Theorem C2_handleEnded_auto_advance :
  forall p : PlayerContext.Provider,
    PlayerContext.localQueue p <> [] ->
    index_valid p ->
    let nextIdx := ((PlayerContext.localIndex p + 1)
                      mod length (PlayerContext.localQueue p))%Z in
    let p' := fst (PlayerContext.handleEnded p) in
    let cs := snd (PlayerContext.handleEnded p) in
    exists nextTrack,
      get (PlayerContext.localQueue p) nextIdx = Some nextTrack /\
      PlayerContext.localQueue p' = PlayerContext.localQueue p /\
      if truthy_opt (preview_url nextTrack) then
        exists url,
          preview_url nextTrack = Some url /\
          cs = [PlayerContext.AudioSetSrc url;
                PlayerContext.AudioPlay PlayerContext.ThenNothing] /\
          PlayerContext.localIndex p' = nextIdx /\
          PlayerContext.localTrack p' = Some nextTrack /\
          Preview.isPlaying (PlayerContext.previewState p') = true
      else
        cs = [] /\
        no_audio_started cs /\
        PlayerContext.localIndex p' = PlayerContext.localIndex p /\
        PlayerContext.localTrack p' = PlayerContext.localTrack p /\
        Preview.isPlaying (PlayerContext.previewState p') = false.
Proof.
  intros p Hq [Hlo _] nextIdx p' cs.
  pose proof (length_pos _ _ Hq) as Hn.
  destruct (next_index_wraps _ _ Hlo Hn) as [Hrem Hrange].
  destruct (get_Some_range _ (PlayerContext.localQueue p) nextIdx Hrange)
    as [t Ht].
  exists t. split; [exact Ht|].
  subst p' cs. unfold PlayerContext.handleEnded.
  destruct (Z.gtb_spec (length (PlayerContext.localQueue p)) 0); [|lia].
  rewrite Hrem. fold nextIdx. rewrite Ht.
  unfold truthy_opt.
  destruct (preview_url t) as [url|].
  - destruct (truthy_string url); simpl.
    + split; [reflexivity|]. exists url. repeat split; reflexivity.
    + repeat split; reflexivity.
  - simpl. repeat split; reflexivity.
Qed.

Lemma C2_handleEnded_auto_advance_witness :
  let p := Samples.local [Samples.A; Samples.B] 1 in
  PlayerContext.localQueue p <> [] /\
  index_valid p /\
  PlayerContext.localIndex (fst (PlayerContext.handleEnded p)) = 0%Z /\
  PlayerContext.localTrack (fst (PlayerContext.handleEnded p)) = Some Samples.A.
Proof.
  intros p.
  assert (Hq : PlayerContext.localQueue p <> []) by discriminate.
  assert (Hi : index_valid p) by (split; [discriminate | reflexivity]).
  split; [exact Hq|]. split; [exact Hi|].
  destruct (C2_handleEnded_auto_advance p Hq Hi) as (t & Ht & _ & Hcase).
  injection Ht as <-.
  destruct Hcase as (url & _ & _ & Hidx & Htrack & _).
  split; [exact Hidx | exact Htrack].
Defined.

(** C2 as stated fails when the next track has no preview URL: after the
    clip of [A] ends in the queue [A, N] the index is still 0 and the track
    still [A]. *)
Lemma C2_counterexample :
  let p := Samples.local [Samples.A; Samples.N] 0 in
  let nextIdx := ((PlayerContext.localIndex p + 1)
                    mod length (PlayerContext.localQueue p))%Z in
  nextIdx = 1%Z /\
  get (PlayerContext.localQueue p) nextIdx = Some Samples.N /\
  preview_url Samples.N = None /\
  PlayerContext.localIndex (fst (PlayerContext.handleEnded p)) <> nextIdx /\
  PlayerContext.localIndex (fst (PlayerContext.handleEnded p)) = 0%Z /\
  PlayerContext.localTrack (fst (PlayerContext.handleEnded p)) = Some Samples.A.
Proof.
  repeat split; try reflexivity. discriminate.
Qed.

(** *** Next and previous on the fallback *)

Section NextPrevious.

Import PlayerContext.

Variable p : Provider.
Hypothesis Hlocal : isPremiumPlayer p = false.
Hypothesis Hdistinct : NoDup (map id (localQueue p)).

(** With pairwise distinct ids, [playTrack(localQueue[j], localQueue)]
    lands on position [j]. *)
Lemma playTrack_position :
  forall j : Z,
    (0 <= j < length (localQueue p))%Z ->
    exists t p' cs,
      get (localQueue p) j = Some t /\
      playTrack (get (localQueue p) j) (Some (localQueue p)) p = Normal (p', cs) /\
      localIndex p' = j /\
      localTrack p' = Some t /\
      localQueue p' = localQueue p /\
      spotifyPlayer p' = spotifyPlayer p.
Proof.
  intros j Hj.
  destruct (get_Some_range _ (localQueue p) j Hj) as [t Ht].
  destruct (playTrack_returns p t (Some (localQueue p))) as [cs Hrun].
  exists t. eexists. exists cs. rewrite Ht.
  split; [reflexivity|]. split; [exact Hrun|]. simpl.
  assert (Hk : nth_error (localQueue p) (Z.to_nat j) = Some t).
  { rewrite <- get_of_nat. rewrite Z2Nat.id by lia. exact Ht. }
  rewrite (findIndex_distinct_ids _ _ _ Hdistinct Hk).
  rewrite Z2Nat.id by lia.
  destruct (Z.geb_spec j 0); [|lia].
  repeat split; reflexivity.
Qed.

Lemma next_distinct_ids :
  (0 <= localIndex p < length (localQueue p))%Z ->
  exists p' cs,
    handleNextTrack p = Normal (p', cs) /\
    localIndex p' = ((localIndex p + 1) mod length (localQueue p))%Z /\
    get (localQueue p) (localIndex p') = localTrack p' /\
    localQueue p' = localQueue p /\
    spotifyPlayer p' = spotifyPlayer p.
Proof.
  intros Hi.
  destruct (next_index_wraps (localIndex p) (length (localQueue p)))
    as [Hrem Hrange]; try lia.
  destruct (playTrack_position _ Hrange) as (t & p' & cs & Ht & Hrun & Hidx & Htr & Hq & Hsp).
  exists p', cs. unfold handleNextTrack. rewrite Hlocal.
  destruct (Z.gtb_spec (length (localQueue p)) 0); [|lia].
  rewrite Hrem. split; [exact Hrun|].
  rewrite Hidx, Htr. repeat split; assumption.
Qed.

Lemma previous_distinct_ids :
  (0 <= localIndex p < length (localQueue p))%Z ->
  exists p' cs,
    handlePreviousTrack p = Normal (p', cs) /\
    localIndex p' = ((localIndex p - 1) mod length (localQueue p))%Z /\
    get (localQueue p) (localIndex p') = localTrack p' /\
    localQueue p' = localQueue p /\
    spotifyPlayer p' = spotifyPlayer p.
Proof.
  intros Hi.
  set (n := length (localQueue p)) in *.
  set (prevIdx := if (localIndex p =? 0)%Z then (n - 1)%Z else (localIndex p - 1)%Z).
  assert (Hmod : prevIdx = ((localIndex p - 1) mod n)%Z).
  { subst prevIdx. destruct (Z.eqb_spec (localIndex p) 0) as [E|E].
    - rewrite E. apply (Z.mod_unique_pos _ _ (-1)); lia.
    - symmetry. apply Z.mod_small. lia. }
  assert (Hrange : (0 <= prevIdx < n)%Z).
  { rewrite Hmod. apply Z.mod_pos_bound. lia. }
  destruct (playTrack_position _ Hrange) as (t & p' & cs & Ht & Hrun & Hidx & Htr & Hq & Hsp).
  exists p', cs. unfold handlePreviousTrack. rewrite Hlocal.
  fold n. destruct (Z.gtb_spec n 0); [|lia].
  fold prevIdx. split; [exact Hrun|].
  rewrite Hidx, Htr, <- Hmod. repeat split; assumption.
Qed.

End NextPrevious.

(** On a queue whose ids are pairwise distinct, [next] then [previous]
    comes back to the index it started from. *)
Lemma next_then_previous_distinct_ids :
  forall p : PlayerContext.Provider,
    PlayerContext.isPremiumPlayer p = false ->
    NoDup (map id (PlayerContext.localQueue p)) ->
    (0 <= PlayerContext.localIndex p < length (PlayerContext.localQueue p))%Z ->
    index_after (next_then_previous p) = Some (PlayerContext.localIndex p).
Proof.
  intros p Hlocal Hnd Hi.
  destruct (next_distinct_ids p Hlocal Hnd Hi) as (p1 & cs1 & Hrun1 & Hidx1 & _ & Hq1 & Hsp1).
  assert (Hlocal1 : PlayerContext.isPremiumPlayer p1 = false).
  { unfold PlayerContext.isPremiumPlayer, PlayerContext.remote in *.
    rewrite Hsp1. exact Hlocal. }
  assert (Hn : (0 < length (PlayerContext.localQueue p))%Z) by lia.
  assert (Hi1 : (0 <= PlayerContext.localIndex p1
                 < length (PlayerContext.localQueue p1))%Z).
  { rewrite Hq1, Hidx1. apply Z.mod_pos_bound. exact Hn. }
  rewrite <- Hq1 in Hnd.
  destruct (previous_distinct_ids p1 Hlocal1 Hnd Hi1) as (p2 & cs2 & Hrun2 & Hidx2 & _).
  unfold index_after, next_then_previous. rewrite Hrun1, Hrun2. simpl.
  rewrite Hidx2, Hidx1, Hq1. f_equal.
  rewrite Zminus_mod_idemp_l.
  replace (PlayerContext.localIndex p + 1 - 1)%Z with (PlayerContext.localIndex p) by lia.
  apply Z.mod_small. exact Hi.
Qed.

(** C4 at a queue that holds one track twice: from index 0 of [A, A, B],
    [next] looks the track at index 1 up by id and lands on index 0 again,
    and [previous] then moves to index 2: the pair does not come back to
    the index it started from. *)
Theorem C4_next_previous_duplicate_ids :
  let p := Samples.local [Samples.A; Samples.A; Samples.B] 0 in
  PlayerContext.isPremiumPlayer p = false /\
  index_valid p /\
  index_after (PlayerContext.handleNextTrack p) = Some 0%Z /\
  index_after (next_then_previous p) = Some 2%Z /\
  index_after (next_then_previous p) <> Some (PlayerContext.localIndex p).
Proof.
  repeat split; try reflexivity; discriminate.
Qed.

(** *** Progress and duration *)

(** The interval callback keeps the position within the duration. *)
Lemma interval_callback_clamped :
  forall s : SpotifyPlayer.PlayerState,
    0 <= SpotifyPlayer.position s ->
    0 <= SpotifyPlayer.duration s ->
    clamped (SpotifyPlayer.position (SpotifyPlayer.interval_callback s))
            (SpotifyPlayer.duration (SpotifyPlayer.interval_callback s)).
Proof.
  intros s Hpos Hdur. unfold clamped.
  cbn [SpotifyPlayer.position SpotifyPlayer.duration SpotifyPlayer.interval_callback].
  split.
  - apply Q.min_glb; [|exact Hdur].
    apply round_double_nonneg. lra.
  - apply Q.le_min_r.
Qed.

(** C5, as the code has it: the periodic remote tick keeps
    [0 <= position <= duration] when position and duration were not
    negative; [seek] on the fallback and the local time update store the
    time they are given as it is, and leave the duration alone. *)
Theorem C5_progress_bounds :
  forall (s : SpotifyPlayer.PlayerState) (p : PlayerContext.Provider)
         (time currentTime : Q),
    0 <= SpotifyPlayer.position s ->
    0 <= SpotifyPlayer.duration s ->
    PlayerContext.isPremiumPlayer p = false ->
    PlayerContext.audioRef p = true ->
    clamped (SpotifyPlayer.position (SpotifyPlayer.interval_callback s))
            (SpotifyPlayer.duration (SpotifyPlayer.interval_callback s)) /\
    PlayerContext.progress (PlayerContext.value (fst (PlayerContext.seek time p))) = time /\
    PlayerContext.duration (PlayerContext.value (fst (PlayerContext.seek time p))) =
    PlayerContext.duration (PlayerContext.value p) /\
    PlayerContext.progress
      (PlayerContext.value (PlayerContext.handleTimeUpdate currentTime p)) = currentTime /\
    PlayerContext.duration
      (PlayerContext.value (PlayerContext.handleTimeUpdate currentTime p)) =
    PlayerContext.duration (PlayerContext.value p).
Proof.
  intros s p time currentTime Hpos Hdur Hlocal Haudio.
  split; [apply interval_callback_clamped; assumption|].
  unfold PlayerContext.seek, PlayerContext.handleTimeUpdate.
  rewrite Hlocal, Haudio.
  assert (Hf : forall f, PlayerContext.isPremiumPlayer (PlayerContext.setPreviewState f p) = false)
    by (intros f; exact Hlocal).
  unfold PlayerContext.value. simpl. rewrite !Hf, Hlocal.
  repeat split; reflexivity.
Qed.

Lemma C5_progress_bounds_witness :
  0 <= SpotifyPlayer.position Samples.now_playing /\
  0 <= SpotifyPlayer.duration Samples.now_playing /\
  PlayerContext.isPremiumPlayer Samples.mounted = false /\
  PlayerContext.audioRef Samples.mounted = true /\
  clamped (SpotifyPlayer.position (SpotifyPlayer.interval_callback Samples.now_playing))
          (SpotifyPlayer.duration (SpotifyPlayer.interval_callback Samples.now_playing)) /\
  PlayerContext.progress
    (PlayerContext.value (fst (PlayerContext.seek 12 Samples.mounted))) = 12.
Proof.
  assert (H1 : 0 <= SpotifyPlayer.position Samples.now_playing) by discriminate.
  assert (H2 : 0 <= SpotifyPlayer.duration Samples.now_playing) by discriminate.
  repeat (split; [first [exact H1 | exact H2 | reflexivity]|]).
  destruct (C5_progress_bounds Samples.now_playing Samples.mounted 12 0
              H1 H2 eq_refl eq_refl) as (Hclamped & Hseek & _).
  split; [exact Hclamped | exact Hseek].
Defined.

(** C5 as stated fails at [seek]: on the mounted fallback, whose duration
    reads 30, [seek(100)] leaves the progress at 100. *)
Lemma C5_counterexample :
  let p' := fst (PlayerContext.seek 100 Samples.mounted) in
  PlayerContext.progress (PlayerContext.value p') = 100 /\
  PlayerContext.duration (PlayerContext.value p') = 30 /\
  ~ clamped (PlayerContext.progress (PlayerContext.value p'))
            (PlayerContext.duration (PlayerContext.value p')).
Proof.
  repeat split.
  intros [_ Hle]. vm_compute in Hle. exact (Hle eq_refl).
Qed.

(** *** The merged read model *)

(** Whole numbers are scaled exactly by [* 1000] and [/ 1000]. *)
Lemma num_mul_whole :
  forall (t : Q) (k : Z),
    (0 <= k)%Z -> (k * 1000 < 2 ^ 53)%Z ->
    t == inject_Z k ->
    num_mul t 1000 == inject_Z (k * 1000).
Proof.
  intros t k Hk Hbound Ht. unfold num_mul.
  rewrite (round_double_compat (t * 1000) (inject_Z (k * 1000))).
  - apply round_double_integer. lia.
  - rewrite Ht, inject_Z_mult. reflexivity.
Qed.

Lemma num_div_whole :
  forall (x : Q) (k : Z),
    (0 <= k < 2 ^ 53)%Z ->
    x == inject_Z (k * 1000) ->
    num_div x 1000 == inject_Z k.
Proof.
  intros x k Hk Hx. unfold num_div.
  rewrite (round_double_compat (x / 1000) (inject_Z k)).
  - apply round_double_integer. exact Hk.
  - rewrite Hx, inject_Z_mult. change (inject_Z 1000) with 1000.
    apply Qdiv_mult_l. discriminate.
Qed.

(** C8: on the fallback an unknown (zero) duration reads as 30; under
    remote authority progress and duration are the adapter's milliseconds
    divided by 1000, and [seek(t)] calls the adapter's [seek] with
    [t * 1000], which hands that number to the vendor player unchanged.
    Product and quotient are those of doubles: a whole number of seconds
    gives exactly its thousandfold, a whole thousand of milliseconds
    exactly its thousandth. *)
Theorem C8_units_and_default_duration :
  forall (pl pr : PlayerContext.Provider) (t : Q) (token : option string),
    PlayerContext.isPremiumPlayer pl = false ->
    Preview.duration (PlayerContext.previewState pl) == 0 ->
    PlayerContext.isPremiumPlayer pr = true ->
    PlayerContext.duration (PlayerContext.value pl) = 30 /\
    PlayerContext.progress (PlayerContext.value pr) =
      num_div (SpotifyPlayer.position (PlayerContext.remote pr)) 1000 /\
    PlayerContext.duration (PlayerContext.value pr) =
      num_div (SpotifyPlayer.duration (PlayerContext.remote pr)) 1000 /\
    PlayerContext.seek t pr =
      (pr, [PlayerContext.Remote (SpotifyPlayer.seek (num_mul t 1000))]) /\
    SpotifyPlayer.invoke token (SpotifyPlayer.seek (num_mul t 1000))
      (PlayerContext.spotifyPlayer pr) =
      (if SpotifyPlayer.playerRef (PlayerContext.spotifyPlayer pr)
       then [SpotifyPlayer.PlayerSeek (num_mul t 1000)] else []) /\
    (forall k : Z,
        (0 <= k)%Z -> (k * 1000 < 2 ^ 53)%Z -> t == inject_Z k ->
        num_mul t 1000 == inject_Z (k * 1000)) /\
    (forall k : Z,
        (0 <= k < 2 ^ 53)%Z ->
        SpotifyPlayer.position (PlayerContext.remote pr) == inject_Z (k * 1000) ->
        PlayerContext.progress (PlayerContext.value pr) == inject_Z k).
Proof.
  intros pl pr t token Hlocal Hzero Hremote.
  unfold PlayerContext.value, PlayerContext.seek.
  cbn [PlayerContext.progress PlayerContext.duration SpotifyPlayer.invoke].
  rewrite Hlocal, Hremote.
  split; [|split; [reflexivity|split; [reflexivity|split; [reflexivity|split;
    [reflexivity|split]]]]].
  - unfold or_number, truthy_number.
    apply Qeq_bool_iff in Hzero. rewrite Hzero. reflexivity.
  - intros k Hk Hbound Ht. exact (num_mul_whole t k Hk Hbound Ht).
  - intros k Hk Hpos. exact (num_div_whole _ k Hk Hpos).
Qed.

Lemma C8_units_and_default_duration_witness :
  PlayerContext.isPremiumPlayer Samples.mounted = false /\
  Preview.duration (PlayerContext.previewState Samples.mounted) == 0 /\
  PlayerContext.isPremiumPlayer (PlayerContext.setRemote Samples.now_playing Samples.mounted) = true /\
  PlayerContext.duration (PlayerContext.value Samples.mounted) = 30 /\
  PlayerContext.progress
    (PlayerContext.value (PlayerContext.setRemote Samples.now_playing Samples.mounted)) ==
    42 /\
  num_mul 12 1000 == 12000.
Proof.
  assert (Hz : Preview.duration (PlayerContext.previewState Samples.mounted) == 0)
    by reflexivity.
  split; [reflexivity|]. split; [exact Hz|]. split; [reflexivity|].
  destruct (C8_units_and_default_duration Samples.mounted
              (PlayerContext.setRemote Samples.now_playing Samples.mounted)
              12 None eq_refl Hz eq_refl) as (Hd & _ & _ & _ & _ & Hmul & Hdiv).
  split; [exact Hd|]. split.
  - apply (Hdiv 42%Z); [split; [discriminate | reflexivity] | reflexivity].
  - apply (Hmul 12%Z); [discriminate | reflexivity | reflexivity].
Defined.

(** *** Authority and dispatch *)

Lemma truthy_opt_iff :
  forall o : option string,
    truthy_opt o = true <-> exists d, o = Some d /\ d <> "".
Proof.
  intros [d|]; simpl; unfold truthy_string.
  - rewrite negb_true_iff, String.eqb_neq. split.
    + intros H. exists d. split; [reflexivity | exact H].
    + intros (d' & [= <-] & H). exact H.
  - split; [discriminate | intros (d & H & _); discriminate].
Qed.

(** Under remote authority every action is one call of the adapter's
    method, and the preview state is not touched. *)
Lemma run_remote :
  forall (p : PlayerContext.Provider) (a : PlayerContext.Action),
    PlayerContext.isPremiumPlayer p = true ->
    exists p',
      PlayerContext.run a p =
        Normal (p', [PlayerContext.Remote (PlayerContext.remote_method a)]) /\
      PlayerContext.previewState p' = PlayerContext.previewState p /\
      PlayerContext.spotifyPlayer p' = PlayerContext.spotifyPlayer p.
Proof.
  intros p a Hremote.
  destruct a as [t [q|]| | | |time|v]; simpl;
    unfold PlayerContext.playTrack, PlayerContext.togglePlay,
      PlayerContext.handleNextTrack, PlayerContext.handlePreviousTrack,
      PlayerContext.seek, PlayerContext.handleSetVolume;
    rewrite Hremote; eexists; repeat split; reflexivity.
Qed.

(** Under local authority no action calls the adapter. *)
Lemma run_local :
  forall (p : PlayerContext.Provider) (a : PlayerContext.Action),
    PlayerContext.isPremiumPlayer p = false ->
    Forall (fun c => PlayerContext.is_remote c = false)
           (PlayerContext.calls_of (PlayerContext.run a p)).
Proof.
  intros p a Hlocal.
  destruct a as [t q| | | |time|v]; unfold PlayerContext.run, PlayerContext.calls_of.
  - apply playTrack_local_calls. exact Hlocal.
  - unfold PlayerContext.togglePlay. rewrite Hlocal.
    destruct (PlayerContext.audioRef p); [|constructor].
    destruct (Preview.isPlaying (PlayerContext.previewState p)); repeat constructor.
  - unfold PlayerContext.handleNextTrack. rewrite Hlocal.
    destruct (length (PlayerContext.localQueue p) >? 0)%Z; [|constructor].
    apply playTrack_local_calls. exact Hlocal.
  - unfold PlayerContext.handlePreviousTrack. rewrite Hlocal.
    destruct (length (PlayerContext.localQueue p) >? 0)%Z; [|constructor].
    apply playTrack_local_calls. exact Hlocal.
  - unfold PlayerContext.seek. rewrite Hlocal.
    destruct (PlayerContext.audioRef p); repeat constructor.
  - unfold PlayerContext.handleSetVolume. rewrite Hlocal.
    destruct (PlayerContext.audioRef p); [|constructor].
    destruct (Qle_bool 0 v && Qle_bool v 1); repeat constructor.
Qed.

(** C1, as the code has it: the remote backend is authoritative exactly
    when [isReady] is true and [deviceId] is a non-empty string (null and
    the empty string both give the fallback); the merged value reads this
    from the adapter's state of the moment; under remote authority every
    action is one call of the adapter's method, and otherwise no action
    calls the adapter: [setVolume] then sets the volume of the audio
    element when there is one and the volume lies in [0, 1], throws when
    there is one and the volume lies outside, and does nothing when there
    is none. *)
Theorem C1_authority_and_dispatch :
  forall (p : PlayerContext.Provider) (s : SpotifyPlayer.PlayerState)
         (a : PlayerContext.Action) (v : Q),
    (PlayerContext.isPremiumPlayer p = true <->
       SpotifyPlayer.isReady (PlayerContext.remote p) = true /\
       exists d, SpotifyPlayer.deviceId (PlayerContext.remote p) = Some d /\ d <> "") /\
    PlayerContext.isPremium (PlayerContext.value (PlayerContext.setRemote s p)) =
      (SpotifyPlayer.isReady s && truthy_opt (SpotifyPlayer.deviceId s)) /\
    (if PlayerContext.isPremiumPlayer p then
       (exists p',
           PlayerContext.run a p =
             Normal (p', [PlayerContext.Remote (PlayerContext.remote_method a)]) /\
           PlayerContext.previewState p' = PlayerContext.previewState p) /\
       PlayerContext.handleSetVolume v p =
         Normal (p, [PlayerContext.Remote (SpotifyPlayer.setVolume v)])
     else
       Forall (fun c => PlayerContext.is_remote c = false)
              (PlayerContext.calls_of (PlayerContext.run a p)) /\
       (if PlayerContext.audioRef p then
          (0 <= v /\ v <= 1 ->
           exists p',
             PlayerContext.handleSetVolume v p =
               Normal (p', [PlayerContext.AudioSetVolume v]) /\
             PlayerContext.volume (PlayerContext.value p') = v) /\
          (~ (0 <= v /\ v <= 1) ->
           returns (PlayerContext.handleSetVolume v p) = false)
        else PlayerContext.handleSetVolume v p = Normal (p, []))).
Proof.
  intros p s a v. split; [|split].
  - unfold PlayerContext.isPremiumPlayer.
    rewrite andb_true_iff, truthy_opt_iff. reflexivity.
  - reflexivity.
  - destruct (PlayerContext.isPremiumPlayer p) eqn:Hauth.
    + split.
      * destruct (run_remote p a Hauth) as (p' & Hrun & Hprev & _).
        exists p'. split; assumption.
      * unfold PlayerContext.handleSetVolume. rewrite Hauth. reflexivity.
    + split; [apply run_local; exact Hauth|].
      unfold PlayerContext.handleSetVolume. rewrite Hauth.
      destruct (PlayerContext.audioRef p); [|reflexivity].
      destruct (Qle_bool 0 v && Qle_bool v 1) eqn:Hrange.
      * split; [|intros Hout; exfalso; apply Hout;
                  apply andb_true_iff in Hrange; destruct Hrange as [H0 H1];
                  split; apply Qle_bool_iff; assumption].
        intros _. eexists. split; [reflexivity|].
        unfold PlayerContext.value. cbn [PlayerContext.volume].
        change (PlayerContext.isPremiumPlayer
                  (PlayerContext.setPreviewState (Preview.with_volume v) p))
          with (PlayerContext.isPremiumPlayer p).
        rewrite Hauth. reflexivity.
      * split; [|reflexivity].
        intros [H0 H1]. apply Qle_bool_iff in H0, H1.
        rewrite H0, H1 in Hrange. discriminate.
Qed.

Lemma C1_authority_and_dispatch_witness :
  0 <= 4 # 5 /\ 4 # 5 <= 1 /\
  exists p',
    PlayerContext.handleSetVolume (4 # 5) Samples.mounted =
      Normal (p', [PlayerContext.AudioSetVolume (4 # 5)]) /\
    PlayerContext.volume (PlayerContext.value p') = 4 # 5.
Proof.
  assert (H0 : 0 <= 4 # 5) by discriminate.
  assert (H1 : 4 # 5 <= 1) by discriminate.
  split; [exact H0|]. split; [exact H1|].
  destruct (C1_authority_and_dispatch Samples.mounted SpotifyPlayer.initial
              PlayerContext.TogglePlay (4 # 5)) as (_ & _ & Hdispatch).
  destruct Hdispatch as [_ [Hin _]].
  exact (Hin (conj H0 H1)).
Defined.

(** C1 as stated fails on the empty device id, on a provider without
    audio element, and on a volume outside [0, 1]: after [ready] with an
    empty [device_id] the adapter is ready with a non-null device id, yet
    the fallback is authoritative; on the initial provider [setVolume]
    reaches neither backend; and on the mounted fallback [setVolume(1.5)]
    throws. *)
Lemma C1_counterexample :
  let s := SpotifyPlayer.on_ready true {| SpotifyPlayer.device_id := "" |}
             SpotifyPlayer.initial in
  let p := PlayerContext.setRemote s Samples.mounted in
  (SpotifyPlayer.isReady (PlayerContext.remote p) = true /\
   SpotifyPlayer.deviceId (PlayerContext.remote p) <> None /\
   PlayerContext.isPremiumPlayer p = false) /\
  (PlayerContext.isPremiumPlayer PlayerContext.initial = false /\
   PlayerContext.handleSetVolume (4 # 5) PlayerContext.initial =
     Normal (PlayerContext.initial, [])) /\
  (PlayerContext.isPremiumPlayer Samples.mounted = false /\
   returns (PlayerContext.handleSetVolume (3 # 2) Samples.mounted) = false).
Proof.
  repeat split; try reflexivity. discriminate.
Qed.

(** The scenario of the spec: after [ready] with device "dev1" the remote
    backend is authoritative and [setVolume(0.8)] is the adapter's
    [setVolume]; after [not_ready] the same call sets the volume of the
    audio element. *)
Example scenario_ready_then_setVolume :
  PlayerContext.isPremiumPlayer Samples.premium = true /\
  PlayerContext.calls_of (PlayerContext.handleSetVolume (4 # 5) Samples.premium) =
    [PlayerContext.Remote (SpotifyPlayer.setVolume (4 # 5))] /\
  PlayerContext.calls_of
    (PlayerContext.handleSetVolume (4 # 5)
       (PlayerContext.setRemote
          (SpotifyPlayer.on_not_ready true {| SpotifyPlayer.device_id := "dev1" |}
             Samples.dev1)
          Samples.mounted)) =
    [PlayerContext.AudioSetVolume (4 # 5)].
Proof. repeat split. Qed.

(** The scenario of the spec on the queue [A, B, C]: three [next] from
    index 0 visit 1, 2 and 0 again. *)
Example scenario_next_wraps :
  index_after (PlayerContext.handleNextTrack
                 (Samples.local [Samples.A; Samples.B; Samples.C] 0)) = Some 1%Z /\
  index_after (PlayerContext.handleNextTrack
                 (Samples.local [Samples.A; Samples.B; Samples.C] 1)) = Some 2%Z /\
  index_after (PlayerContext.handleNextTrack
                 (Samples.local [Samples.A; Samples.B; Samples.C] 2)) = Some 0%Z /\
  index_after (PlayerContext.handlePreviousTrack
                 (Samples.local [Samples.A; Samples.B; Samples.C] 0)) = Some 2%Z.
Proof. repeat split. Qed.

(** [previous] on an index beyond the queue reads [undefined] and throws;
    the index never gets there, see [run_index_valid]. *)
Example previous_out_of_range_throws :
  returns (PlayerContext.handlePreviousTrack
             (Samples.local [Samples.A; Samples.B; Samples.C] 7)) = false.
Proof. reflexivity. Qed.

(** *** The index stays within the queue *)


Lemma index_valid_initial : index_valid PlayerContext.initial.
Proof. split; [discriminate | reflexivity]. Qed.





(** ** Further properties of the remote adapter *)

Lemma deliver_all_app :
  forall (isMounted : bool) (es es' : list SpotifyPlayer.Event)
         (s : SpotifyPlayer.PlayerState),
    SpotifyPlayer.deliver_all isMounted (es ++ es')%list s =
    SpotifyPlayer.deliver_all isMounted es' (SpotifyPlayer.deliver_all isMounted es s).
Proof.
  intros isMounted es es' s. unfold SpotifyPlayer.deliver_all.
  apply fold_left_app.
Qed.

(** After teardown the liveness flag is false: no listener of the vendor
    player changes the state any more, whatever it is sent. *)
Theorem listeners_silent_after_teardown :
  forall (es : list SpotifyPlayer.Event) (s : SpotifyPlayer.PlayerState),
    Forall (fun e => e <> SpotifyPlayer.Tick) es ->
    SpotifyPlayer.deliver_all false es s = s.
Proof.
  induction es as [|e es IH]; intros s Hall.
  - reflexivity.
  - inversion Hall as [|e' es' He Hes]; subst.
    unfold SpotifyPlayer.deliver_all in *. simpl.
    replace (SpotifyPlayer.deliver false e s) with s; [exact (IH s Hes)|].
    destruct e as [ev|ev|ps|m|m|m|]; try reflexivity. congruence.
Qed.

Lemma listeners_silent_after_teardown_witness :
  SpotifyPlayer.deliver_all false
    [SpotifyPlayer.Ready {| SpotifyPlayer.device_id := "dev2" |};
     SpotifyPlayer.StateChanged None;
     SpotifyPlayer.NotReady {| SpotifyPlayer.device_id := "dev2" |}]
    Samples.now_playing = Samples.now_playing.
Proof.
  apply listeners_silent_after_teardown.
  repeat constructor; discriminate.
Defined.

(** The last [ready] or [not_ready] decides: after [ready] and any events
    but those two the adapter is ready with the device id of that event,
    and the coordinator reads remote authority exactly when that id is not
    empty; after [not_ready] it is not ready and the fallback is
    authoritative. *)
Theorem last_connection_event_decides :
  forall (es es' : list SpotifyPlayer.Event) (ev : SpotifyPlayer.DevicePayload)
         (s : SpotifyPlayer.PlayerState) (p : PlayerContext.Provider),
    Forall (fun e => connection_event e = false) es' ->
    let up := SpotifyPlayer.deliver_all true
                (es ++ SpotifyPlayer.Ready ev :: es')%list s in
    let down := SpotifyPlayer.deliver_all true
                  (es ++ SpotifyPlayer.NotReady ev :: es')%list s in
    SpotifyPlayer.isReady up = true /\
    SpotifyPlayer.deviceId up = Some (SpotifyPlayer.device_id ev) /\
    PlayerContext.isPremiumPlayer (PlayerContext.setRemote up p) =
      truthy_string (SpotifyPlayer.device_id ev) /\
    SpotifyPlayer.isReady down = false /\
    PlayerContext.isPremiumPlayer (PlayerContext.setRemote down p) = false.
Proof.
  intros es es' ev s p Hquiet up down. subst up down.
  rewrite !deliver_all_app.
  set (s0 := SpotifyPlayer.deliver_all true es s).
  change (SpotifyPlayer.deliver_all true (SpotifyPlayer.Ready ev :: es') s0)
    with (SpotifyPlayer.deliver_all true es' (SpotifyPlayer.on_ready true ev s0)).
  change (SpotifyPlayer.deliver_all true (SpotifyPlayer.NotReady ev :: es') s0)
    with (SpotifyPlayer.deliver_all true es' (SpotifyPlayer.on_not_ready true ev s0)).
  destruct (connection_frame true es' (SpotifyPlayer.on_ready true ev s0) Hquiet)
    as [Hdev Hready].
  destruct (connection_frame true es' (SpotifyPlayer.on_not_ready true ev s0) Hquiet)
    as [_ Hready'].
  unfold PlayerContext.isPremiumPlayer, PlayerContext.remote. simpl.
  rewrite Hdev, Hready, Hready'. simpl.
  repeat split; reflexivity.
Qed.

Lemma last_connection_event_decides_witness :
  let es' := [SpotifyPlayer.StateChanged None; SpotifyPlayer.Tick] in
  let ev := {| SpotifyPlayer.device_id := "dev1" |} in
  Forall (fun e => connection_event e = false) es' /\
  PlayerContext.isPremiumPlayer
    (PlayerContext.setRemote
       (SpotifyPlayer.deliver_all true
          ([SpotifyPlayer.NotReady ev] ++ SpotifyPlayer.Ready ev :: es')%list
          SpotifyPlayer.initial)
       Samples.mounted) = true.
Proof.
  intros es' ev.
  assert (Hq : Forall (fun e => connection_event e = false) es')
    by (repeat constructor).
  split; [exact Hq|].
  destruct (last_connection_event_decides [SpotifyPlayer.NotReady ev] es' ev
              SpotifyPlayer.initial Samples.mounted Hq) as (_ & _ & Hauth & _).
  exact Hauth.
Defined.

(** *** The position interval over time *)







(** As long as the vendor player reports positions within the track it
    reports, the adapter's position stays between 0 and its duration under
    every sequence of events, ticks included. *)
Theorem remote_progress_stays_clamped :
  forall (isMounted : bool) (es : list SpotifyPlayer.Event)
         (s : SpotifyPlayer.PlayerState),
    clamped (SpotifyPlayer.position s) (SpotifyPlayer.duration s) ->
    Forall payload_clamped es ->
    clamped (SpotifyPlayer.position (SpotifyPlayer.deliver_all isMounted es s))
            (SpotifyPlayer.duration (SpotifyPlayer.deliver_all isMounted es s)).
Proof.
  intros isMounted es. induction es as [|e es IH]; intros s Hs Hall.
  - exact Hs.
  - inversion Hall as [|e' es' He Hes]; subst.
    unfold SpotifyPlayer.deliver_all in *. simpl. apply IH; [|exact Hes].
    destruct Hs as [Hlo Hhi].
    destruct e as [ev|ev|[ps|]|m|m|m|]; simpl;
      try (destruct isMounted; simpl; split; assumption).
    + destruct isMounted; simpl; [|split; assumption].
      simpl in He. destruct (SpotifyPlayer.current_track ps) as [t|].
      * destruct He as [Hp0 Hpd]. split; [exact Hp0|].
        unfold or_number, truthy_number.
        destruct (Qeq_bool (SpotifyPlayer.wt_duration_ms t) 0) eqn:Ez; simpl.
        -- apply Qeq_bool_iff in Ez. lra.
        -- exact Hpd.
      * split; lra.
    + unfold SpotifyPlayer.tick.
      destruct (SpotifyPlayer.interval_installed s); [|split; assumption].
      apply interval_callback_clamped; lra.
Qed.

Lemma remote_progress_stays_clamped_witness :
  let es := [SpotifyPlayer.Tick; SpotifyPlayer.StateChanged None; SpotifyPlayer.Tick] in
  clamped (SpotifyPlayer.position Samples.now_playing)
          (SpotifyPlayer.duration Samples.now_playing) /\
  Forall payload_clamped es /\
  clamped (SpotifyPlayer.position (SpotifyPlayer.deliver_all true es Samples.now_playing))
          (SpotifyPlayer.duration (SpotifyPlayer.deliver_all true es Samples.now_playing)).
Proof.
  intros es.
  assert (Hs : clamped (SpotifyPlayer.position Samples.now_playing)
                       (SpotifyPlayer.duration Samples.now_playing))
    by (split; discriminate).
  assert (Hes : Forall payload_clamped es) by (repeat constructor).
  split; [exact Hs|]. split; [exact Hes|].
  exact (remote_progress_stays_clamped true es Samples.now_playing Hs Hes).
Defined.

(** Before the vendor player is connected and a device is known, every
    transport method is a no-op: no call goes out and no state changes,
    whatever the token. *)
Theorem methods_are_noops_unconnected :
  forall (token : option string) (m : SpotifyPlayer.Method) (h : SpotifyPlayer.Hook),
    SpotifyPlayer.playerRef h = false ->
    SpotifyPlayer.deviceId (SpotifyPlayer.state h) = None ->
    SpotifyPlayer.invoke token m h = [] /\ SpotifyPlayer.resolved m h = h.
Proof.
  intros token m h Href Hdev.
  destruct m; simpl; rewrite ?Href, ?Hdev; split; try reflexivity.
  destruct token; reflexivity.
Qed.

Lemma methods_are_noops_unconnected_witness :
  SpotifyPlayer.invoke (Some "token") (SpotifyPlayer.play "spotify:track:a" None)
    (PlayerContext.spotifyPlayer PlayerContext.initial) = [] /\
  SpotifyPlayer.resolved (SpotifyPlayer.play "spotify:track:a" None)
    (PlayerContext.spotifyPlayer PlayerContext.initial) =
  PlayerContext.spotifyPlayer PlayerContext.initial.
Proof.
  exact (methods_are_noops_unconnected (Some "token")
           (SpotifyPlayer.play "spotify:track:a" None)
           (PlayerContext.spotifyPlayer PlayerContext.initial) eq_refl eq_refl).
Defined.

(** *** Mount and teardown *)

(** The cleanup may run any number of times: the first run disconnects a
    connected player, a second run does nothing, the state is kept, and
    afterwards no method reaches the vendor player. *)
Theorem cleanup_is_idempotent :
  forall (h : SpotifyPlayer.Hook) (token : option string) (m : SpotifyPlayer.Method),
    let h1 := fst (Lifecycle.cleanup h) in
    snd (Lifecycle.cleanup h) = SpotifyPlayer.playerRef h /\
    Lifecycle.cleanup h1 = (h1, false) /\
    SpotifyPlayer.state h1 = SpotifyPlayer.state h /\
    match m with
    | SpotifyPlayer.play _ _ =>
        SpotifyPlayer.invoke token m h1 = SpotifyPlayer.invoke token m h
    | _ => SpotifyPlayer.invoke token m h1 = [] /\ SpotifyPlayer.resolved m h1 = h1
    end.
Proof.
  intros [s r] token m. unfold Lifecycle.cleanup. simpl.
  destruct r; simpl; repeat split; destruct m; simpl; repeat split; reflexivity.
Qed.

Lemma getElementById_count :
  forall (document : list string) (i : string),
    Lifecycle.getElementById document i = false <->
    count_occ string_dec document i = 0%nat.
Proof.
  intros document i. unfold Lifecycle.getElementById.
  induction document as [|x document IH]; simpl.
  - split; reflexivity.
  - destruct (string_dec x i) as [E|E].
    + subst x. rewrite String.eqb_refl. simpl. split; discriminate.
    + rewrite (proj2 (String.eqb_neq i x)) by congruence. simpl. exact IH.
Qed.

(** However often the adapter is mounted, the document gets the script of
    the vendor runtime once, and only if some mount was authenticated; a
    document that has it is left as it is. *)
Theorem sdk_script_loaded_once :
  forall (mounts : list bool) (document : list string),
    let document' := fold_left (fun d authenticated => Lifecycle.initialize authenticated d)
                       mounts document in
    (count_occ string_dec document "spotify-sdk" = 0%nat ->
     count_occ string_dec document' "spotify-sdk" =
       if existsb (fun authenticated => authenticated) mounts then 1%nat else 0%nat) /\
    (count_occ string_dec document "spotify-sdk" <> 0%nat -> document' = document).
Proof.
  induction mounts as [|a mounts IH]; intros document document'.
  - subst document'. simpl. split; [intros H; exact H | reflexivity].
  - subst document'.
    change (fold_left (fun d authenticated => Lifecycle.initialize authenticated d)
              (a :: mounts) document)
      with (fold_left (fun d authenticated => Lifecycle.initialize authenticated d)
              mounts (Lifecycle.initialize a document)).
    destruct (IH (Lifecycle.initialize a document)) as [IH0 IH1].
    split.
    + intros H0. destruct a.
      * assert (Hloaded : count_occ string_dec (Lifecycle.initialize true document)
                            "spotify-sdk" = 1%nat).
        { unfold Lifecycle.initialize, Lifecycle.load_sdk.
          rewrite (proj2 (getElementById_count document "spotify-sdk") H0). simpl.
          rewrite count_occ_app, H0. reflexivity. }
        rewrite IH1 by (rewrite Hloaded; discriminate).
        exact Hloaded.
      * apply IH0. exact H0.
    + intros Hn.
      assert (Hsame : Lifecycle.initialize a document = document).
      { destruct a; [|reflexivity]. unfold Lifecycle.initialize, Lifecycle.load_sdk.
        destruct (Lifecycle.getElementById document "spotify-sdk") eqn:E; [reflexivity|].
        apply getElementById_count in E. contradiction. }
      rewrite Hsame in IH1 |- *. apply IH1. exact Hn.
Qed.

Lemma sdk_script_loaded_once_witness :
  count_occ string_dec ["root"] "spotify-sdk" = 0%nat /\
  count_occ string_dec
    (fold_left (fun d authenticated => Lifecycle.initialize authenticated d)
       [false; true; true; false; true] ["root"]) "spotify-sdk" = 1%nat.
Proof.
  split; [reflexivity|].
  exact (proj1 (sdk_script_loaded_once [false; true; true; false; true] ["root"])
           eq_refl).
Defined.

(** *** Identifiers out of URIs *)

Lemma split_not_nil :
  forall (sep : ascii) (s : string), split sep s <> [].
Proof.
  intros sep s. destruct s as [|c rest]; simpl; [discriminate|].
  destruct (Ascii.eqb c sep); [discriminate|].
  destruct (split sep rest); discriminate.
Qed.

(** Joining the segments of a string with the separator gives the string
    back, and no segment holds the separator. *)
Theorem join_split :
  forall (sep : ascii) (s : string),
    join sep (split sep s) = s /\
    Forall (fun w => ~ In sep (list_ascii_of_string w)) (split sep s).
Proof.
  intros sep s. induction s as [|c rest [IHj IHf]]; simpl.
  - split; [reflexivity|]. constructor; [intros [] | constructor].
  - destruct (Ascii.eqb_spec c sep) as [E|E].
    + subst c. split.
      * pose proof (split_not_nil sep rest) as Hne.
        destruct (split sep rest) as [|w ws]; [congruence|].
        simpl. f_equal. exact IHj.
      * constructor; [intros [] | exact IHf].
    + destruct (split sep rest) as [|w ws] eqn:Es.
      * exfalso. exact (split_not_nil sep rest Es).
      * split.
        -- simpl in *. destruct ws; simpl; f_equal; exact IHj.
        -- inversion IHf as [|w' ws' Hw Hws]; subst.
           constructor; [|exact Hws].
           simpl. intros [Hc | Hin]; [congruence | exact (Hw Hin)].
Qed.

Lemma split_whole :
  forall (sep : ascii) (a : string),
    ~ In sep (list_ascii_of_string a) -> split sep a = [a].
Proof.
  intros sep a. induction a as [|c a IH]; intros Hfree; simpl.
  - reflexivity.
  - simpl in Hfree.
    destruct (Ascii.eqb_spec c sep) as [E|E]; [exfalso; apply Hfree; left; exact E|].
    rewrite IH by (intros Hin; apply Hfree; right; exact Hin).
    reflexivity.
Qed.

(** The track the adapter builds from a payload takes the album id from
    the third segment of the album URI: "spotify:album:x" gives "x".  It
    has no id when the payload has no album or when the URI has fewer than
    three segments, and it never has a preview URL. *)
Theorem map_track_album_id :
  forall (t : SpotifyPlayer.WebPlaybackTrack) (a : SpotifyPlayer.WebPlaybackAlbum)
         (x y : string),
    SpotifyPlayer.wt_album t = Some a ->
    ~ In ":"%char (list_ascii_of_string x) ->
    ~ In ":"%char (list_ascii_of_string y) ->
    (SpotifyPlayer.wb_uri a = Some ("spotify:album:" ++ x) ->
     album_id (album (SpotifyPlayer.map_track t)) = Some x) /\
    (SpotifyPlayer.wb_uri a = Some ("spotify:" ++ y) ->
     album_id (album (SpotifyPlayer.map_track t)) = None) /\
    (SpotifyPlayer.wb_uri a = None ->
     album_id (album (SpotifyPlayer.map_track t)) = None) /\
    id (SpotifyPlayer.map_track t) = SpotifyPlayer.wt_id t /\
    preview_url (SpotifyPlayer.map_track t) = None.
Proof.
  intros t a x y Ha Hx Hy.
  assert (E3 : forall z, split ":"%char ("spotify:album:" ++ z)
                         = "spotify" :: "album" :: split ":"%char z)
    by (intros z; reflexivity).
  assert (E2 : forall z, split ":"%char ("spotify:" ++ z)
                         = "spotify" :: split ":"%char z)
    by (intros z; reflexivity).
  unfold SpotifyPlayer.map_track. cbn [album album_id id preview_url]. rewrite Ha.
  repeat split.
  - intros Hu. rewrite Hu. unfold uri_segment2.
    rewrite E3, (split_whole _ x Hx). reflexivity.
  - intros Hu. rewrite Hu. unfold uri_segment2.
    rewrite E2, (split_whole _ y Hy). reflexivity.
  - intros Hu. rewrite Hu. reflexivity.
Qed.

Lemma map_track_album_id_witness :
  let a := {| SpotifyPlayer.wb_uri := Some ("spotify:album:" ++ "4aawyAB9vmqN3uQ7FjRGTy");
              SpotifyPlayer.wb_name := None; SpotifyPlayer.wb_images := None |} in
  let t := {| SpotifyPlayer.wt_id := "a"; SpotifyPlayer.wt_name := "a";
              SpotifyPlayer.wt_duration_ms := 180000;
              SpotifyPlayer.wt_album := Some a;
              SpotifyPlayer.wt_artists := None |} in
  album_id (album (SpotifyPlayer.map_track t)) = Some "4aawyAB9vmqN3uQ7FjRGTy".
Proof.
  intros a t.
  assert (Hx : ~ In ":"%char (list_ascii_of_string "4aawyAB9vmqN3uQ7FjRGTy")).
  { simpl. intros H. repeat (destruct H as [H | H]; [discriminate H|]). exact H. }
  assert (Hy : ~ In ":"%char (list_ascii_of_string "")) by (intros H; exact H).
  exact (proj1 (map_track_album_id t a "4aawyAB9vmqN3uQ7FjRGTy" "" eq_refl Hx Hy) eq_refl).
Defined.

(** ** Further properties of the coordinator *)

Lemma isPremiumPlayer_hook :
  forall p p' : PlayerContext.Provider,
    PlayerContext.spotifyPlayer p' = PlayerContext.spotifyPlayer p ->
    PlayerContext.isPremiumPlayer p' = PlayerContext.isPremiumPlayer p.
Proof.
  intros p p' H. unfold PlayerContext.isPremiumPlayer, PlayerContext.remote.
  rewrite H. reflexivity.
Qed.

(** On the fallback, [togglePlay] while a preview plays pauses the audio
    element and reads as not playing at once; a second [togglePlay] starts
    the element but reads as playing only when the promise of [play()] is
    fulfilled, and then the provider is back in the state it started
    from. *)
Theorem togglePlay_pause_resume :
  forall p : PlayerContext.Provider,
    PlayerContext.isPremiumPlayer p = false ->
    PlayerContext.audioRef p = true ->
    Preview.isPlaying (PlayerContext.previewState p) = true ->
    let held := fst (PlayerContext.togglePlay p) in
    snd (PlayerContext.togglePlay p) = [PlayerContext.AudioPause] /\
    PlayerContext.isPlaying (PlayerContext.value held) = false /\
    PlayerContext.togglePlay held =
      (held, [PlayerContext.AudioPlay PlayerContext.ThenTogglePlay]) /\
    PlayerContext.play_fulfilled PlayerContext.ThenTogglePlay held = p.
Proof.
  intros p Hlocal Haudio Hplaying held. subst held.
  unfold PlayerContext.togglePlay. rewrite Hlocal, Haudio, Hplaying. simpl.
  unfold PlayerContext.value, PlayerContext.togglePlay. simpl.
  change (PlayerContext.isPremiumPlayer
            (PlayerContext.setPreviewState (Preview.with_isPlaying false) p))
    with (PlayerContext.isPremiumPlayer p).
  rewrite Hlocal, Haudio. simpl.
  repeat split.
  destruct p as [h q i t a [pl pr d v]]. simpl in Hplaying. subst pl. reflexivity.
Qed.

Lemma togglePlay_pause_resume_witness :
  PlayerContext.isPremiumPlayer Samples.playing_A = false /\
  PlayerContext.audioRef Samples.playing_A = true /\
  Preview.isPlaying (PlayerContext.previewState Samples.playing_A) = true /\
  PlayerContext.play_fulfilled PlayerContext.ThenTogglePlay
    (fst (PlayerContext.togglePlay Samples.playing_A)) = Samples.playing_A.
Proof.
  repeat (split; [reflexivity|]).
  destruct (togglePlay_pause_resume Samples.playing_A eq_refl eq_refl eq_refl)
    as (_ & _ & _ & Hback).
  exact Hback.
Defined.

(** On the fallback with an audio element, [playTrack] of a track with a
    preview URL loads that URL and starts the element; the read model
    shows the track at once, and shows it playing from 0 only when the
    promise of [play()] is fulfilled. *)
Theorem playTrack_starts_preview :
  forall (p : PlayerContext.Provider) (t : SpotifyTrack)
         (queue : option (list SpotifyTrack)) (url : string),
    PlayerContext.isPremiumPlayer p = false ->
    PlayerContext.audioRef p = true ->
    preview_url t = Some url ->
    url <> "" ->
    exists p',
      PlayerContext.playTrack (Some t) queue p =
        Normal (p', [PlayerContext.AudioSetSrc url;
                     PlayerContext.AudioPlay PlayerContext.ThenPlayTrack]) /\
      PlayerContext.currentTrack (PlayerContext.value p') = Some t /\
      PlayerContext.previewState p' = PlayerContext.previewState p /\
      let p'' := PlayerContext.play_fulfilled PlayerContext.ThenPlayTrack p' in
      PlayerContext.currentTrack (PlayerContext.value p'') = Some t /\
      PlayerContext.isPlaying (PlayerContext.value p'') = true /\
      PlayerContext.progress (PlayerContext.value p'') = 0.
Proof.
  intros p t queue url Hlocal Haudio Hurl Hne.
  destruct (playTrack_returns p t queue) as [cs Hrun].
  assert (Hcs : cs = [PlayerContext.AudioSetSrc url;
                      PlayerContext.AudioPlay PlayerContext.ThenPlayTrack]).
  { revert Hrun. unfold PlayerContext.playTrack.
    rewrite Hlocal, Haudio, Hurl. simpl. unfold truthy_string.
    rewrite (proj2 (String.eqb_neq url "") Hne). simpl.
    intros [= <-]. reflexivity. }
  subst cs. eexists. split; [exact Hrun|].
  assert (Hl : forall p1, PlayerContext.spotifyPlayer p1 = PlayerContext.spotifyPlayer p ->
                          PlayerContext.isPremiumPlayer p1 = false).
  { intros p1 H. rewrite (isPremiumPlayer_hook p p1 H). exact Hlocal. }
  unfold PlayerContext.value, PlayerContext.play_fulfilled. simpl.
  rewrite !Hl by (destruct queue; reflexivity).
  repeat split; destruct queue; reflexivity.
Qed.

Lemma playTrack_starts_preview_witness :
  exists p',
    PlayerContext.playTrack (Some Samples.B) None Samples.mounted =
      Normal (p', [PlayerContext.AudioSetSrc "https://p.scdn.co/b.mp3";
                   PlayerContext.AudioPlay PlayerContext.ThenPlayTrack]) /\
    PlayerContext.isPlaying
      (PlayerContext.value
         (PlayerContext.play_fulfilled PlayerContext.ThenPlayTrack p')) = true.
Proof.
  destruct (playTrack_starts_preview Samples.mounted Samples.B None
              "https://p.scdn.co/b.mp3" eq_refl eq_refl eq_refl)
    as (p' & Hrun & _ & _ & _ & Hplaying & _).
  - discriminate.
  - exists p'. split; [exact Hrun | exact Hplaying].
Defined.

(** Without an audio element (before the mount effect, after unmount) no
    action on the fallback makes any call, and none touches the preview
    state. *)
Theorem no_audio_element_no_calls :
  forall (p : PlayerContext.Provider) (a : PlayerContext.Action),
    PlayerContext.isPremiumPlayer p = false ->
    PlayerContext.audioRef p = false ->
    PlayerContext.calls_of (PlayerContext.run a p) = [] /\
    forall p' cs,
      PlayerContext.run a p = Normal (p', cs) ->
      PlayerContext.previewState p' = PlayerContext.previewState p.
Proof.
  intros p a Hlocal Haudio.
  assert (Hplay : forall track q,
             PlayerContext.calls_of (PlayerContext.playTrack track q p) = [] /\
             forall p' cs, PlayerContext.playTrack track q p = Normal (p', cs) ->
                           PlayerContext.previewState p' = PlayerContext.previewState p).
  { intros [t|] q; unfold PlayerContext.playTrack; [|split; [reflexivity|discriminate]].
    rewrite Hlocal, Haudio, andb_false_r.
    split; [reflexivity|]. intros p' cs [= <- _]. destruct q; reflexivity. }
  destruct a as [t q| | | |time|v]; unfold PlayerContext.run.
  - apply Hplay.
  - unfold PlayerContext.togglePlay. rewrite Hlocal, Haudio.
    split; [reflexivity|]. intros p' cs [= <- _]. reflexivity.
  - unfold PlayerContext.handleNextTrack. rewrite Hlocal.
    destruct (length (PlayerContext.localQueue p) >? 0)%Z; [apply Hplay|].
    split; [reflexivity|]. intros p' cs [= <- _]. reflexivity.
  - unfold PlayerContext.handlePreviousTrack. rewrite Hlocal.
    destruct (length (PlayerContext.localQueue p) >? 0)%Z; [apply Hplay|].
    split; [reflexivity|]. intros p' cs [= <- _]. reflexivity.
  - unfold PlayerContext.seek. rewrite Hlocal, Haudio.
    split; [reflexivity|]. intros p' cs [= <- _]. reflexivity.
  - unfold PlayerContext.handleSetVolume. rewrite Hlocal, Haudio.
    split; [reflexivity|]. intros p' cs [= <- _]. reflexivity.
Qed.

Lemma no_audio_element_no_calls_witness :
  let p := fst (Lifecycle.unmount Samples.playing_A) in
  snd (Lifecycle.unmount Samples.playing_A) = [PlayerContext.AudioPause] /\
  PlayerContext.calls_of (PlayerContext.run PlayerContext.TogglePlay p) = [] /\
  PlayerContext.calls_of (PlayerContext.run PlayerContext.NextTrack p) = [].
Proof.
  intros p. split; [reflexivity|].
  split.
  - exact (proj1 (no_audio_element_no_calls p PlayerContext.TogglePlay eq_refl eq_refl)).
  - exact (proj1 (no_audio_element_no_calls p PlayerContext.NextTrack eq_refl eq_refl)).
Defined.

(** *** Under remote authority *)

Lemma authority_iff :
  forall p : PlayerContext.Provider,
    PlayerContext.isPremiumPlayer p = true <->
    SpotifyPlayer.isReady (PlayerContext.remote p) = true /\
    exists d, SpotifyPlayer.deviceId (PlayerContext.remote p) = Some d /\ d <> "".
Proof.
  intros p. unfold PlayerContext.isPremiumPlayer.
  rewrite andb_true_iff, truthy_opt_iff. reflexivity.
Qed.

(** Under remote authority no action updates the read model by itself:
    track, playing flag, progress, duration and volume stay as the adapter
    last reported them until the vendor player reports again. *)
Theorem remote_actions_wait_for_report :
  forall (p : PlayerContext.Provider) (a : PlayerContext.Action),
    PlayerContext.isPremiumPlayer p = true ->
    exists p' cs,
      PlayerContext.run a p = Normal (p', cs) /\
      PlayerContext.currentTrack (PlayerContext.value p') =
        PlayerContext.currentTrack (PlayerContext.value p) /\
      PlayerContext.isPlaying (PlayerContext.value p') =
        PlayerContext.isPlaying (PlayerContext.value p) /\
      PlayerContext.progress (PlayerContext.value p') =
        PlayerContext.progress (PlayerContext.value p) /\
      PlayerContext.duration (PlayerContext.value p') =
        PlayerContext.duration (PlayerContext.value p) /\
      PlayerContext.volume (PlayerContext.value p') =
        PlayerContext.volume (PlayerContext.value p) /\
      PlayerContext.isPremium (PlayerContext.value p') = true.
Proof.
  intros p a Hremote.
  destruct (run_remote p a Hremote) as (p' & Hrun & Hprev & Hhook).
  exists p'. eexists. split; [exact Hrun|].
  pose proof (isPremiumPlayer_hook p p' Hhook) as Hauth. rewrite Hremote in Hauth.
  unfold PlayerContext.value. simpl. rewrite Hauth, Hremote.
  unfold PlayerContext.remote. rewrite Hhook.
  repeat split; reflexivity.
Qed.

Lemma remote_actions_wait_for_report_witness :
  PlayerContext.isPremiumPlayer Samples.premium = true /\
  exists p' cs,
    PlayerContext.run (PlayerContext.PlayTrack Samples.A (Some [Samples.A; Samples.B]))
      Samples.premium = Normal (p', cs) /\
    PlayerContext.currentTrack (PlayerContext.value p') = None.
Proof.
  split; [reflexivity|].
  destruct (remote_actions_wait_for_report Samples.premium
              (PlayerContext.PlayTrack Samples.A (Some [Samples.A; Samples.B])) eq_refl)
    as (p' & cs & Hrun & Htrack & _).
  exists p', cs. split; [exact Hrun | exact Htrack].
Defined.

(** Seconds and milliseconds meet: under remote authority [seek(t)] asks
    the adapter for the double [t * 1000] and leaves the progress as it
    reads; when that product is exact (as for a whole number of
    milliseconds) and the vendor player then reports the position it was
    asked for, the progress reads [t]. *)
Theorem seek_then_report_reads_back :
  forall (p : PlayerContext.Provider) (t : Q) (ps : SpotifyPlayer.WebPlaybackState),
    PlayerContext.isPremiumPlayer p = true ->
    round_double t == t ->
    num_mul t 1000 == t * 1000 ->
    SpotifyPlayer.ws_position ps = num_mul t 1000 ->
    let reported :=
      PlayerContext.setRemote
        (SpotifyPlayer.on_player_state_changed true (Some ps) (PlayerContext.remote p))
        (fst (PlayerContext.seek t p)) in
    snd (PlayerContext.seek t p) =
      [PlayerContext.Remote (SpotifyPlayer.seek (num_mul t 1000))] /\
    PlayerContext.progress (PlayerContext.value (fst (PlayerContext.seek t p))) =
      PlayerContext.progress (PlayerContext.value p) /\
    PlayerContext.progress (PlayerContext.value reported) == t.
Proof.
  intros p t ps Hremote Hdouble Hexact Hpos reported. subst reported.
  unfold PlayerContext.seek. rewrite Hremote. cbn [fst snd].
  split; [reflexivity|]. split; [reflexivity|].
  unfold PlayerContext.value. cbn [PlayerContext.progress].
  assert (Hauth : PlayerContext.isPremiumPlayer
                    (PlayerContext.setRemote
                       (SpotifyPlayer.on_player_state_changed true (Some ps)
                          (PlayerContext.remote p)) p) = true) by exact Hremote.
  rewrite Hauth.
  change (SpotifyPlayer.position
            (PlayerContext.remote
               (PlayerContext.setRemote
                  (SpotifyPlayer.on_player_state_changed true (Some ps)
                     (PlayerContext.remote p)) p)))
    with (SpotifyPlayer.ws_position ps).
  rewrite Hpos. unfold num_div.
  rewrite (round_double_compat (num_mul t 1000 / 1000) t).
  - exact Hdouble.
  - rewrite Hexact. apply Qdiv_mult_l. discriminate.
Qed.

Lemma seek_then_report_reads_back_witness :
  let t := 25 # 2 in
  let ps := {| SpotifyPlayer.paused := false;
               SpotifyPlayer.ws_position := num_mul t 1000;
               SpotifyPlayer.current_track := None |} in
  PlayerContext.isPremiumPlayer Samples.premium = true /\
  round_double t == t /\
  num_mul t 1000 == t * 1000 /\
  PlayerContext.progress
    (PlayerContext.value
       (PlayerContext.setRemote
          (SpotifyPlayer.on_player_state_changed true (Some ps)
             (PlayerContext.remote Samples.premium))
          (fst (PlayerContext.seek t Samples.premium)))) == t.
Proof.
  intros t ps.
  assert (Hd : round_double t == t) by (vm_compute; reflexivity).
  assert (He : num_mul t 1000 == t * 1000) by (vm_compute; reflexivity).
  split; [reflexivity|]. split; [exact Hd|]. split; [exact He|].
  destruct (seek_then_report_reads_back Samples.premium t ps eq_refl Hd He eq_refl)
    as (_ & _ & Hread).
  exact Hread.
Defined.

(** Under remote authority [setVolume(v)] reaches the vendor player only
    when it is connected; the volume of the read model becomes [v] once the
    call has resolved, and stays as it was when there is no player; the
    volume of the preview is not touched. *)
Theorem setVolume_remote_resolves :
  forall (p : PlayerContext.Provider) (v : Q) (token : option string),
    PlayerContext.isPremiumPlayer p = true ->
    let h := PlayerContext.spotifyPlayer p in
    exists p0 cs,
      PlayerContext.handleSetVolume v p = Normal (p0, cs) /\
      let p' := Lifecycle.setHook (SpotifyPlayer.resolved (SpotifyPlayer.setVolume v) h)
                  p0 in
      System.forward token h cs =
        (if SpotifyPlayer.playerRef h then [SpotifyPlayer.PlayerSetVolume v] else []) /\
      PlayerContext.volume (PlayerContext.value p') =
        (if SpotifyPlayer.playerRef h then v
         else PlayerContext.volume (PlayerContext.value p)) /\
      PlayerContext.previewState p' = PlayerContext.previewState p /\
      PlayerContext.isPremiumPlayer p' = true.
Proof.
  intros p v token Hremote h. subst h.
  exists p, [PlayerContext.Remote (SpotifyPlayer.setVolume v)].
  split; [unfold PlayerContext.handleSetVolume; rewrite Hremote; reflexivity|].
  destruct p as [[s r] q i tr a pv].
  unfold PlayerContext.value, PlayerContext.isPremiumPlayer, PlayerContext.remote in *.
  simpl in *.
  destruct r; simpl; rewrite ?Hremote; repeat split; reflexivity.
Qed.

Lemma setVolume_remote_resolves_witness :
  let p := Lifecycle.setHook
             (Lifecycle.onSpotifyWebPlaybackSDKReady true (Some "token") true true
                (PlayerContext.spotifyPlayer Samples.premium)) Samples.premium in
  PlayerContext.isPremiumPlayer p = true /\
  System.forward None (PlayerContext.spotifyPlayer p)
    (PlayerContext.calls_of (PlayerContext.handleSetVolume (4 # 5) p)) =
  [SpotifyPlayer.PlayerSetVolume (4 # 5)].
Proof.
  intros p. split; [reflexivity|].
  destruct (setVolume_remote_resolves p (4 # 5) None eq_refl)
    as (p0 & cs & Hrun & Hforward & _).
  rewrite Hrun. exact Hforward.
Defined.

(** Under remote authority and with a token, [playTrack] ends in one
    request to the Web API: on the device the adapter is ready with, with
    the URI of that single track and no context, whatever queue is
    passed. *)
Theorem playTrack_remote_request :
  forall (p : PlayerContext.Provider) (t : SpotifyTrack)
         (queue : option (list SpotifyTrack)) (token : string),
    PlayerContext.isPremiumPlayer p = true ->
    token <> "" ->
    exists device,
      SpotifyPlayer.deviceId (PlayerContext.remote p) = Some device /\
      System.forward (Some token) (PlayerContext.spotifyPlayer p)
        (PlayerContext.calls_of (PlayerContext.run (PlayerContext.PlayTrack t queue) p)) =
      [SpotifyPlayer.FetchPlay device token
         (SpotifyPlayer.UrisBody ["spotify:track:" ++ id t])].
Proof.
  intros p t queue token Hremote Htok.
  destruct (proj1 (authority_iff p) Hremote) as (_ & device & Hdev & Hne).
  exists device. split; [exact Hdev|].
  destruct (run_remote p (PlayerContext.PlayTrack t queue) Hremote) as (p' & Hrun & _).
  rewrite Hrun. unfold PlayerContext.remote in Hdev. simpl.
  rewrite Hdev. unfold truthy_string.
  rewrite (proj2 (String.eqb_neq token "") Htok), (proj2 (String.eqb_neq device "") Hne).
  reflexivity.
Qed.

Lemma playTrack_remote_request_witness :
  PlayerContext.isPremiumPlayer Samples.premium = true /\
  System.forward (Some "token") (PlayerContext.spotifyPlayer Samples.premium)
    (PlayerContext.calls_of
       (PlayerContext.run (PlayerContext.PlayTrack Samples.A (Some [Samples.A; Samples.B]))
          Samples.premium)) =
  [SpotifyPlayer.FetchPlay "dev1" "token" (SpotifyPlayer.UrisBody ["spotify:track:a"])].
Proof.
  split; [reflexivity|].
  destruct (playTrack_remote_request Samples.premium Samples.A
              (Some [Samples.A; Samples.B]) "token" eq_refl)
    as (device & Hdev & Hreq).
  - discriminate.
  - injection Hdev as <-. exact Hreq.
Defined.

(** *** Moving through the queue *)

Lemma findIndex_first_of_id :
  forall (q : list SpotifyTrack) (k : nat) (t : SpotifyTrack),
    nth_error q k = Some t ->
    exists j u,
      findIndex (fun t' => String.eqb (id t') (id t)) q = Z.of_nat j /\
      (j <= k)%nat /\
      nth_error q j = Some u /\ id u = id t /\
      forall i v, (i < j)%nat -> nth_error q i = Some v -> id v <> id t.
Proof.
  intros q k t Hk.
  set (f := fun t' : SpotifyTrack => String.eqb (id t') (id t)).
  destruct (first_match_dec f q) as [Hnone | (j & u & Hj & Hu & Hbefore)].
  - exfalso. pose proof (Hnone t (nth_error_In _ _ Hk)) as Hf.
    unfold f in Hf. rewrite String.eqb_refl in Hf. discriminate.
  - exists j, u. unfold findIndex.
    rewrite (findIndex_from_found f q 0%Z j u Hj Hu Hbefore).
    split; [lia|]. split.
    + destruct (Nat.le_gt_cases j k) as [Hle|Hgt]; [exact Hle|].
      pose proof (Hbefore k t Hgt Hk) as Hf.
      unfold f in Hf. rewrite String.eqb_refl in Hf. discriminate.
    + split; [exact Hj|]. split; [apply String.eqb_eq; exact Hu|].
      intros i v Hi Hv. apply String.eqb_neq. exact (Hbefore i v Hi Hv).
Qed.

(** On the fallback, whatever the queue holds, [next] returns and makes
    the track at the wrap-around position the current track; the index it
    stores is the first position of the queue with the id of that track,
    which is at or before the wrap-around position. *)
Theorem next_lands_on_first_of_id :
  forall p : PlayerContext.Provider,
    PlayerContext.isPremiumPlayer p = false ->
    PlayerContext.localQueue p <> [] ->
    index_valid p ->
    let q := PlayerContext.localQueue p in
    let nextIdx := ((PlayerContext.localIndex p + 1) mod length q)%Z in
    exists t u p' cs,
      get q nextIdx = Some t /\
      PlayerContext.handleNextTrack p = Normal (p', cs) /\
      PlayerContext.localTrack p' = Some t /\
      PlayerContext.localQueue p' = q /\
      (0 <= PlayerContext.localIndex p' <= nextIdx)%Z /\
      get q (PlayerContext.localIndex p') = Some u /\ id u = id t /\
      forall i v, (0 <= i < PlayerContext.localIndex p')%Z ->
                  get q i = Some v -> id v <> id t.
Proof.
  intros p Hlocal Hq [Hlo _] q nextIdx.
  pose proof (length_pos _ _ Hq) as Hn. fold q in Hn.
  destruct (next_index_wraps _ _ Hlo Hn) as [Hrem Hrange]. fold nextIdx in Hrem, Hrange.
  destruct (get_Some_range _ q nextIdx Hrange) as [t Ht].
  assert (Hk : nth_error q (Z.to_nat nextIdx) = Some t).
  { rewrite <- get_of_nat, Z2Nat.id by lia. exact Ht. }
  destruct (findIndex_first_of_id q _ t Hk) as (j & u & Hfind & Hle & Hj & Hid & Hfirst).
  destruct (playTrack_returns p t (Some q)) as [cs Hrun].
  exists t, u. eexists. exists cs.
  split; [exact Ht|]. split.
  - unfold PlayerContext.handleNextTrack. rewrite Hlocal. fold q.
    destruct (Z.gtb_spec (length q) 0); [|lia].
    rewrite Hrem, Ht. exact Hrun.
  - simpl. rewrite Hfind.
    destruct (Z.geb_spec (Z.of_nat j) 0); [|lia].
    split; [reflexivity|]. split; [reflexivity|].
    split; [lia|]. split; [rewrite get_of_nat; exact Hj|].
    split; [exact Hid|].
    intros i v Hi Hv. apply (Hfirst (Z.to_nat i) v); [lia|].
    rewrite <- get_of_nat, Z2Nat.id by lia. exact Hv.
Qed.

Lemma next_lands_on_first_of_id_witness :
  let p := Samples.local [Samples.A; Samples.B; Samples.A] 1 in
  PlayerContext.isPremiumPlayer p = false /\
  PlayerContext.localQueue p <> [] /\
  index_valid p /\
  exists p' cs,
    PlayerContext.handleNextTrack p = Normal (p', cs) /\
    PlayerContext.localTrack p' = Some Samples.A /\
    (0 <= PlayerContext.localIndex p' <= 2)%Z.
Proof.
  intros p.
  assert (Hq : PlayerContext.localQueue p <> []) by discriminate.
  assert (Hi : index_valid p) by (split; [discriminate | reflexivity]).
  split; [reflexivity|]. split; [exact Hq|]. split; [exact Hi|].
  destruct (next_lands_on_first_of_id p eq_refl Hq Hi)
    as (t & u & p' & cs & Ht & Hrun & Htrack & _ & Hrange & _).
  injection Ht as <-.
  exists p', cs. split; [exact Hrun|]. split; [exact Htrack | exact Hrange].
Defined.

(** On a queue whose ids are pairwise distinct, [k] times [next] moves the
    index [k] positions on around the queue, so as many as the queue is
    long bring it back; the queue is not changed. *)
Theorem next_k_times :
  forall (k : nat) (p : PlayerContext.Provider),
    PlayerContext.isPremiumPlayer p = false ->
    NoDup (map id (PlayerContext.localQueue p)) ->
    (0 <= PlayerContext.localIndex p < length (PlayerContext.localQueue p))%Z ->
    exists p',
      System.steps (repeat (System.Act PlayerContext.NextTrack) k) p = Normal p' /\
      PlayerContext.localIndex p' =
        ((PlayerContext.localIndex p + Z.of_nat k)
           mod length (PlayerContext.localQueue p))%Z /\
      PlayerContext.localQueue p' = PlayerContext.localQueue p.
Proof.
  induction k as [|k IH]; intros p Hlocal Hnd Hi.
  - exists p. simpl. split; [reflexivity|]. split; [|reflexivity].
    rewrite Z.add_0_r. symmetry. apply Z.mod_small. exact Hi.
  - destruct (next_distinct_ids p Hlocal Hnd Hi) as (p1 & cs1 & Hrun1 & Hidx1 & _ & Hq1 & Hsp1).
    assert (Hlocal1 : PlayerContext.isPremiumPlayer p1 = false)
      by (rewrite (isPremiumPlayer_hook p p1 Hsp1); exact Hlocal).
    assert (Hi1 : (0 <= PlayerContext.localIndex p1
                   < length (PlayerContext.localQueue p1))%Z).
    { rewrite Hq1, Hidx1. apply Z.mod_pos_bound. lia. }
    assert (Hnd1 : NoDup (map id (PlayerContext.localQueue p1)))
      by (rewrite Hq1; exact Hnd).
    destruct (IH p1 Hlocal1 Hnd1 Hi1) as (p' & Hsteps & Hidx & Hq).
    exists p'. split.
    + change (repeat (System.Act PlayerContext.NextTrack) (S k))
        with (System.Act PlayerContext.NextTrack
                :: repeat (System.Act PlayerContext.NextTrack) k).
      unfold System.steps. fold System.steps.
      unfold System.step, PlayerContext.run. rewrite Hrun1. exact Hsteps.
    + split; [|congruence].
      rewrite Hidx, Hq1, Hidx1, Zplus_mod_idemp_l. f_equal. lia.
Qed.

Lemma next_k_times_witness :
  let p := Samples.local [Samples.A; Samples.B; Samples.C] 1 in
  PlayerContext.isPremiumPlayer p = false /\
  NoDup (map id (PlayerContext.localQueue p)) /\
  exists p',
    System.steps (repeat (System.Act PlayerContext.NextTrack) 3) p = Normal p' /\
    PlayerContext.localIndex p' = 1%Z.
Proof.
  intros p.
  assert (Hnd : NoDup (map id (PlayerContext.localQueue p))).
  { simpl. repeat constructor; simpl; intros H;
      repeat (destruct H as [H | H]; [discriminate H|]); exact H. }
  split; [reflexivity|]. split; [exact Hnd|].
  destruct (next_k_times 3 p eq_refl Hnd) as (p' & Hsteps & Hidx & _).
  - split; [discriminate | reflexivity].
  - exists p'. split; [exact Hsteps | exact Hidx].
Defined.

(** On a queue whose ids are pairwise distinct, [previous] then [next]
    comes back to the index it started from, as [next] then [previous]
    does. *)
Theorem previous_then_next_distinct_ids :
  forall p : PlayerContext.Provider,
    PlayerContext.isPremiumPlayer p = false ->
    NoDup (map id (PlayerContext.localQueue p)) ->
    (0 <= PlayerContext.localIndex p < length (PlayerContext.localQueue p))%Z ->
    exists p',
      System.steps [System.Act PlayerContext.PreviousTrack;
                    System.Act PlayerContext.NextTrack] p = Normal p' /\
      PlayerContext.localIndex p' = PlayerContext.localIndex p /\
      PlayerContext.localTrack p' =
        get (PlayerContext.localQueue p) (PlayerContext.localIndex p) /\
      PlayerContext.localQueue p' = PlayerContext.localQueue p.
Proof.
  intros p Hlocal Hnd Hi.
  destruct (previous_distinct_ids p Hlocal Hnd Hi) as (p1 & cs1 & Hrun1 & Hidx1 & _ & Hq1 & Hsp1).
  assert (Hlocal1 : PlayerContext.isPremiumPlayer p1 = false)
    by (rewrite (isPremiumPlayer_hook p p1 Hsp1); exact Hlocal).
  assert (Hi1 : (0 <= PlayerContext.localIndex p1
                 < length (PlayerContext.localQueue p1))%Z).
  { rewrite Hq1, Hidx1. apply Z.mod_pos_bound. lia. }
  assert (Hnd1 : NoDup (map id (PlayerContext.localQueue p1)))
    by (rewrite Hq1; exact Hnd).
  destruct (next_distinct_ids p1 Hlocal1 Hnd1 Hi1) as (p2 & cs2 & Hrun2 & Hidx2 & Hget2 & Hq2 & _).
  assert (Hback : PlayerContext.localIndex p2 = PlayerContext.localIndex p).
  { rewrite Hidx2, Hq1, Hidx1, Zplus_mod_idemp_l.
    replace (PlayerContext.localIndex p - 1 + 1)%Z with (PlayerContext.localIndex p) by lia.
    apply Z.mod_small. exact Hi. }
  exists p2. split.
  - unfold System.steps, System.step, PlayerContext.run. rewrite Hrun1, Hrun2. reflexivity.
  - split; [exact Hback|]. split; [|congruence].
    rewrite <- Hget2, Hq1, Hback. reflexivity.
Qed.

Lemma previous_then_next_distinct_ids_witness :
  let p := Samples.local [Samples.A; Samples.B; Samples.C] 0 in
  PlayerContext.isPremiumPlayer p = false /\
  NoDup (map id (PlayerContext.localQueue p)) /\
  exists p',
    System.steps [System.Act PlayerContext.PreviousTrack;
                  System.Act PlayerContext.NextTrack] p = Normal p' /\
    PlayerContext.localIndex p' = 0%Z.
Proof.
  intros p.
  assert (Hnd : NoDup (map id (PlayerContext.localQueue p))).
  { simpl. repeat constructor; simpl; intros H;
      repeat (destruct H as [H | H]; [discriminate H|]); exact H. }
  split; [reflexivity|]. split; [exact Hnd|].
  destruct (previous_then_next_distinct_ids p eq_refl Hnd) as (p' & Hsteps & Hidx & _).
  - split; [discriminate | reflexivity].
  - exists p'. split; [exact Hsteps | exact Hidx].
Defined.

(** *** Clip ends in sequence *)

Lemma handleEnded_playable :
  forall p : PlayerContext.Provider,
    all_playable (PlayerContext.localQueue p) ->
    PlayerContext.localQueue p <> [] ->
    index_valid p ->
    let nextIdx := ((PlayerContext.localIndex p + 1)
                      mod length (PlayerContext.localQueue p))%Z in
    let p' := fst (PlayerContext.handleEnded p) in
    PlayerContext.localIndex p' = nextIdx /\
    PlayerContext.localTrack p' = get (PlayerContext.localQueue p) nextIdx /\
    PlayerContext.localQueue p' = PlayerContext.localQueue p /\
    PlayerContext.audioRef p' = PlayerContext.audioRef p /\
    Preview.isPlaying (PlayerContext.previewState p') = true.
Proof.
  intros p Hplay Hq [Hlo _] nextIdx p'.
  pose proof (length_pos _ _ Hq) as Hn.
  destruct (next_index_wraps _ _ Hlo Hn) as [Hrem Hrange]. fold nextIdx in Hrem, Hrange.
  destruct (get_Some_range _ (PlayerContext.localQueue p) nextIdx Hrange) as [t Ht].
  assert (Hin : In t (PlayerContext.localQueue p)).
  { apply (nth_error_In _ (Z.to_nat nextIdx)).
    rewrite <- get_of_nat, Z2Nat.id by lia. exact Ht. }
  pose proof (proj1 (Forall_forall _ _) Hplay t Hin) as Hurl.
  subst p'. unfold PlayerContext.handleEnded.
  destruct (Z.gtb_spec (length (PlayerContext.localQueue p)) 0); [|lia].
  rewrite Hrem, Ht. unfold truthy_opt in Hurl.
  destruct (preview_url t) as [url|]; [|discriminate].
  rewrite Hurl. simpl. repeat split; reflexivity.
Qed.

(** When every track of the queue has a preview, [k] clip ends in a row
    move the index [k] positions on around the queue and leave the track
    at that position playing, duplicates in the queue or not. *)
Theorem ended_k_times :
  forall (k : nat) (p : PlayerContext.Provider),
    PlayerContext.audioRef p = true ->
    all_playable (PlayerContext.localQueue p) ->
    PlayerContext.localQueue p <> [] ->
    index_valid p ->
    exists p',
      System.steps (repeat System.AudioEnded k) p = Normal p' /\
      PlayerContext.localIndex p' =
        ((PlayerContext.localIndex p + Z.of_nat k)
           mod length (PlayerContext.localQueue p))%Z /\
      PlayerContext.localQueue p' = PlayerContext.localQueue p /\
      ((0 < k)%nat ->
       PlayerContext.localTrack p' =
         get (PlayerContext.localQueue p) (PlayerContext.localIndex p') /\
       Preview.isPlaying (PlayerContext.previewState p') = true).
Proof.
  induction k as [|k IH]; intros p Haudio Hplay Hq Hi.
  - exists p. simpl. split; [reflexivity|].
    pose proof (length_pos _ _ Hq) as Hn. destruct Hi as [Hlo Hhi].
    split; [|split; [reflexivity | lia]].
    rewrite Z.add_0_r. symmetry. apply Z.mod_small. lia.
  - destruct (handleEnded_playable p Hplay Hq Hi) as (Hidx1 & Htr1 & Hq1 & Ha1 & Hpl1).
    set (p1 := fst (PlayerContext.handleEnded p)) in *.
    pose proof (length_pos _ _ Hq) as Hn.
    assert (Hi1 : index_valid p1).
    { unfold index_valid. rewrite Hq1, Hidx1.
      pose proof (Z.mod_pos_bound (PlayerContext.localIndex p + 1)
                    (length (PlayerContext.localQueue p)) Hn). lia. }
    assert (Hq1' : PlayerContext.localQueue p1 <> []) by (rewrite Hq1; exact Hq).
    assert (Hplay1 : all_playable (PlayerContext.localQueue p1)) by (rewrite Hq1; exact Hplay).
    assert (Haudio1 : PlayerContext.audioRef p1 = true) by (rewrite Ha1; exact Haudio).
    destruct (IH p1 Haudio1 Hplay1 Hq1' Hi1) as (p' & Hsteps & Hidx & Hq' & Hlast).
    exists p'. split.
    + change (repeat System.AudioEnded (S k))
        with (System.AudioEnded :: repeat System.AudioEnded k).
      unfold System.steps. fold System.steps.
      unfold System.step. rewrite Haudio. exact Hsteps.
    + assert (Hidx' : PlayerContext.localIndex p' =
                ((PlayerContext.localIndex p + Z.of_nat (S k))
                   mod length (PlayerContext.localQueue p))%Z).
      { rewrite Hidx, Hq1, Hidx1, Zplus_mod_idemp_l. f_equal. lia. }
      split; [exact Hidx'|]. split; [congruence|].
      intros _. destruct k as [|k].
      * simpl in Hsteps. injection Hsteps as <-.
        rewrite Hidx1. split; [exact Htr1 | exact Hpl1].
      * destruct (Hlast ltac:(lia)) as [Htr Hpl].
        rewrite Htr, Hq1. split; [reflexivity | exact Hpl].
Qed.

Lemma ended_k_times_witness :
  let p := Samples.local [Samples.A; Samples.A; Samples.B] 0 in
  PlayerContext.audioRef p = true /\
  all_playable (PlayerContext.localQueue p) /\
  index_valid p /\
  exists p',
    System.steps (repeat System.AudioEnded 2) p = Normal p' /\
    PlayerContext.localIndex p' = 2%Z.
Proof.
  intros p.
  assert (Hplay : all_playable (PlayerContext.localQueue p)) by (repeat constructor).
  assert (Hi : index_valid p) by (split; [discriminate | reflexivity]).
  split; [reflexivity|]. split; [exact Hplay|]. split; [exact Hi|].
  destruct (ended_k_times 2 p eq_refl Hplay) as (p' & Hsteps & Hidx & _).
  - discriminate.
  - exact Hi.
  - exists p'. split; [exact Hsteps | exact Hidx].
Defined.

(** *** No sequence of inputs throws *)







(** On the fallback an empty queue is inert: [next] and [previous] change
    nothing and call nothing, a clip end starts nothing; and
    [playTrack(t, [])] is what leaves such a queue, with index 0. *)
Theorem empty_queue_is_inert :
  forall (p : PlayerContext.Provider) (t : SpotifyTrack),
    PlayerContext.isPremiumPlayer p = false ->
    PlayerContext.localQueue p = [] ->
    PlayerContext.handleNextTrack p = Normal (p, []) /\
    PlayerContext.handlePreviousTrack p = Normal (p, []) /\
    snd (PlayerContext.handleEnded p) = [] /\
    PlayerContext.localIndex (fst (PlayerContext.handleEnded p)) =
      PlayerContext.localIndex p /\
    PlayerContext.localTrack (fst (PlayerContext.handleEnded p)) =
      PlayerContext.localTrack p /\
    exists p' cs,
      PlayerContext.playTrack (Some t) (Some []) p = Normal (p', cs) /\
      PlayerContext.localQueue p' = [] /\
      PlayerContext.localIndex p' = 0%Z.
Proof.
  intros p t Hlocal Hq.
  unfold PlayerContext.handleNextTrack, PlayerContext.handlePreviousTrack,
    PlayerContext.handleEnded.
  rewrite Hlocal, Hq. simpl.
  repeat (split; [reflexivity|]).
  destruct (playTrack_returns p t (Some [])) as [cs Hrun].
  eexists. exists cs. split; [exact Hrun|]. split; reflexivity.
Qed.

Lemma empty_queue_is_inert_witness :
  PlayerContext.handleNextTrack Samples.mounted = Normal (Samples.mounted, []) /\
  PlayerContext.handlePreviousTrack Samples.mounted = Normal (Samples.mounted, []).
Proof.
  destruct (empty_queue_is_inert Samples.mounted Samples.A eq_refl eq_refl)
    as (Hnext & Hprev & _).
  split; [exact Hnext | exact Hprev].
Defined.

(** *** When authority changes *)

(** The track requested under remote authority is remembered: when the
    device then drops, the read model shows that track from the fallback,
    with the preview state as it was before the request, and no position is
    carried over from the remote backend. *)
Theorem requested_track_survives_switch :
  forall (p : PlayerContext.Provider) (t : SpotifyTrack)
         (queue : option (list SpotifyTrack)) (ev : SpotifyPlayer.DevicePayload),
    PlayerContext.isPremiumPlayer p = true ->
    exists p' cs,
      PlayerContext.playTrack (Some t) queue p = Normal (p', cs) /\
      let dropped :=
        PlayerContext.setRemote
          (SpotifyPlayer.on_not_ready true ev (PlayerContext.remote p')) p' in
      PlayerContext.isPremium (PlayerContext.value dropped) = false /\
      PlayerContext.currentTrack (PlayerContext.value dropped) = Some t /\
      PlayerContext.isPlaying (PlayerContext.value dropped) =
        Preview.isPlaying (PlayerContext.previewState p) /\
      PlayerContext.progress (PlayerContext.value dropped) =
        Preview.progress (PlayerContext.previewState p).
Proof.
  intros p t queue ev Hremote.
  destruct (playTrack_returns p t queue) as [cs Hrun].
  eexists. exists cs. split; [exact Hrun|].
  unfold PlayerContext.value, PlayerContext.isPremiumPlayer, PlayerContext.remote.
  destruct queue; simpl; repeat split; reflexivity.
Qed.

Lemma requested_track_survives_switch_witness :
  PlayerContext.isPremiumPlayer Samples.premium = true /\
  exists p' cs,
    PlayerContext.playTrack (Some Samples.B) None Samples.premium = Normal (p', cs) /\
    PlayerContext.currentTrack
      (PlayerContext.value
         (PlayerContext.setRemote
            (SpotifyPlayer.on_not_ready true {| SpotifyPlayer.device_id := "dev1" |}
               (PlayerContext.remote p')) p')) = Some Samples.B.
Proof.
  split; [reflexivity|].
  destruct (requested_track_survives_switch Samples.premium Samples.B None
              {| SpotifyPlayer.device_id := "dev1" |} eq_refl)
    as (p' & cs & Hrun & _ & Htrack & _).
  exists p', cs. split; [exact Hrun | exact Htrack].
Defined.

Lemma next_then_previous_distinct_ids_witness :
  let p := Samples.local [Samples.A; Samples.B; Samples.C] 2 in
  PlayerContext.isPremiumPlayer p = false /\
  NoDup (map id (PlayerContext.localQueue p)) /\
  index_after (next_then_previous p) = Some 2%Z.
Proof.
  intros p.
  assert (Hnd : NoDup (map id (PlayerContext.localQueue p))).
  { simpl. repeat constructor; simpl; intros H;
      repeat (destruct H as [H | H]; [discriminate H|]); exact H. }
  split; [reflexivity|]. split; [exact Hnd|].
  apply (next_then_previous_distinct_ids p eq_refl Hnd).
  split; [discriminate | reflexivity].
Defined.
